(** * Tic-Tac-Toe with a Negamax opponent: a shallow embedding of
      [Application.cpp] and the properties of its game-tree search.

    The program keeps its whole state in file-level variables of the
    namespace [ClassGame]; the embedding gathers them in the record
    [State] and passes it explicitly.  Functions that only read the board
    take the board; functions that write take and return a [State].  The
    random generator [rng] is seeded and never read, so it is left out.

    The board is a [std::array<int,9>]: a list of 9 cells, read with
    [!!!] and written with [<[ _ := _ ]>]; every index the program uses
    comes from [WINS], [ORDER] or a loop over 0..8, hence is in range.

    C++ [int] is modelled by [Z].  The only arithmetic the search does on
    [int] is unary minus and comparison.  The sides passed by the program
    are +1 and -1, and [Negamax_frame_total] shows that every value
    returned by [Negamax] lies in [-1..1]: no negation can overflow, so
    [Z.opp] is exact. *)

From stdpp Require Import base numbers list.

Open Scope Z_scope.

(** ** State (Application.cpp, lines 40-45) *)

Record State := mkState {
  board : list Z;          (* std::array<int,9>: 0 empty, 1 = X, 2 = O *)
  currentPlayer : Z;       (* whose turn: 1 or 2 *)
  gameOver : bool;
  winner : Z;              (* 0 none/draw, 1 or 2 winner *)
  aiEnabled : bool         (* play vs AI as Player 2 (O) *)
}.

(** [std::numeric_limits<int>::min()] for a 32-bit [int]. *)
Definition INT_MIN : Z := - 2 ^ 31.

(** All 8 winning triplets (lines 48-52). *)
Definition WINS : list (nat * nat * nat) :=
  [ (0, 1, 2); (3, 4, 5); (6, 7, 8);
    (0, 3, 6); (1, 4, 7); (2, 5, 8);
    (0, 4, 8); (2, 4, 6) ]%nat.

(** Preferred move order: center, corners, edges (line 55). *)
Definition ORDER : list nat := [4; 0; 2; 6; 8; 1; 3; 5; 7]%nat.

(** The state before [GameStartUp]: statics are zero-initialised, the
    others carry their initialisers. *)
Definition init_state : State :=
  mkState (replicate 9 0) 1 false 0 true.

(** [board[idx] = v]. *)
Definition set_cell (st : State) (idx : nat) (v : Z) : State :=
  mkState (<[idx := v]> (board st)) (currentPlayer st) (gameOver st)
          (winner st) (aiEnabled st).

(** ** Helpers (lines 58-84) *)

Definition ResetGame (st : State) : State :=
  mkState (replicate 9 0) 1 false 0 (aiEnabled st).

(** [GameStartUp] seeds [rng] and resets; [StopGame] resets. *)
Definition GameStartUp (st : State) : State := ResetGame st.

Definition StopGame (st : State) : State := ResetGame st.

(** The [for (auto& line : WINS)] loop of [CheckWinnerRaw]. *)
Fixpoint CheckWinnerRaw_loop (lines : list (nat * nat * nat)) (bd : list Z) : Z :=
  match lines with
  | [] => 0
  | (l0, l1, l2) :: rest =>
      let a := bd !!! l0 in
      let b := bd !!! l1 in
      let c := bd !!! l2 in
      if negb (a =? 0) && (a =? b) && (b =? c) then a
      else CheckWinnerRaw_loop rest bd
  end.

Definition CheckWinnerRaw (bd : list Z) : Z := CheckWinnerRaw_loop WINS bd.

(** Signed mapping used by Negamax: +1 = X has 3-in-a-row,
    -1 = O has 3-in-a-row, 0 = none. *)
Definition CheckWinnerSigned (bd : list Z) : Z :=
  let w := CheckWinnerRaw bd in
  if w =? 1 then 1 else if w =? 2 then -1 else 0.

(** [for (int v : board) if (v == 0) return false; return true;] *)
Fixpoint BoardFull (bd : list Z) : bool :=
  match bd with
  | [] => true
  | v :: rest => if v =? 0 then false else BoardFull rest
  end.

(** ** Negamax (lines 89-118)

    The recursion of the source is on the machine stack; the embedding
    bounds its depth by [fuel] and returns [None] when the bound is hit.
    [Negamax_loop] is the body of [for (int idx : ORDER)], with the
    recursive call abstracted as [rec]; it threads [best] and the state. *)

Fixpoint Negamax_loop (rec : Z -> State -> option (Z * State))
    (side : Z) (order : list nat) (best : Z) (st : State) : option (Z * State) :=
  match order with
  | [] => Some (best, st)
  | idx :: rest =>
      if negb (board st !!! idx =? 0) then Negamax_loop rec side rest best st
      else
        (* make move for current side *)
        let st1 := set_cell st idx (if side =? 1 then 1 else 2) in
        match rec (- side) st1 with
        | None => None
        | Some (r, st2) =>
            let val := - r in
            (* undo *)
            let st3 := set_cell st2 idx 0 in
            let best' := if val >? best then val else best in
            if best' =? 1 then Some (best', st3)
            else Negamax_loop rec side rest best' st3
        end
  end.

Fixpoint Negamax (fuel : nat) (side : Z) (st : State) : option (Z * State) :=
  match fuel with
  | O => None
  | S fuel' =>
      let signedWinner := CheckWinnerSigned (board st) in
      if negb (signedWinner =? 0) then
        Some ((if signedWinner =? side then 1 else -1), st)
      else if BoardFull (board st) then Some (0, st)
      else Negamax_loop (Negamax fuel') side ORDER INT_MIN st
  end.

(** ** AI move selection (lines 122-154) *)

(** The [for (int idx : ORDER)] loop of [AIMove_Negamax]; it yields
    [(bestVal, bestMove, state)]. *)
Fixpoint AIMove_loop (fuel : nat) (order : list nat) (bestVal bestMove : Z)
    (st : State) : option (Z * Z * State) :=
  match order with
  | [] => Some (bestVal, bestMove, st)
  | idx :: rest =>
      if negb (board st !!! idx =? 0) then AIMove_loop fuel rest bestVal bestMove st
      else
        let st1 := set_cell st idx 2 in              (* try O here *)
        match Negamax fuel 1 st1 with                (* next side is X *)
        | None => None
        | Some (r, st2) =>
            let val := - r in
            let st3 := set_cell st2 idx 0 in
            if val >? bestVal then
              if val =? 1 then Some (val, Z.of_nat idx, st3)
              else AIMove_loop fuel rest val (Z.of_nat idx) st3
            else AIMove_loop fuel rest bestVal bestMove st3
        end
  end.

(** The fallback loop [for (int i = 0; i < 9; ++i) if (board[i] == 0) ...]. *)
Fixpoint first_empty (bd : list Z) (idxs : list nat) (bestMove : Z) : Z :=
  match idxs with
  | [] => bestMove
  | i :: rest => if bd !!! i =? 0 then Z.of_nat i else first_empty bd rest bestMove
  end.

(** Lines 151-153 (and 195-196): recompute [winner] and [gameOver]. *)
Definition update_outcome (st : State) : State :=
  let w := CheckWinnerRaw (board st) in
  mkState (board st) (currentPlayer st)
          (negb (w =? 0) || BoardFull (board st)) w (aiEnabled st).

Definition set_currentPlayer (st : State) (p : Z) : State :=
  mkState (board st) p (gameOver st) (winner st) (aiEnabled st).

(** The part of [AIMove_Negamax] after the search loop: fallback, commit
    the move, recompute the outcome, hand the turn back. *)
Definition AIMove_commit (bestMove : Z) (st : State) : State :=
  let bestMove :=
    if bestMove =? -1 then first_empty (board st) (seq 0 9) bestMove
    else bestMove in
  let st1 := if negb (bestMove =? -1) then set_cell st (Z.to_nat bestMove) 2
             else st in
  let st2 := update_outcome st1 in
  if negb (gameOver st2) then set_currentPlayer st2 1 else st2.

Definition AIMove_Negamax (fuel : nat) (st : State) : option State :=
  if gameOver st then Some st
  else
    match AIMove_loop fuel ORDER INT_MIN (-1) st with
    | None => None
    | Some (_, bestMove, st1) => Some (AIMove_commit bestMove st1)
    end.

(** ** The click handler of [DrawBoardUI] (lines 185-207) *)

(** The final value of [disabled] for cell [idx]. *)
Definition disabled (st : State) (idx : nat) : bool :=
  if aiEnabled st then
    gameOver st || negb (board st !!! idx =? 0) || negb (currentPlayer st =? 1)
  else gameOver st || negb (board st !!! idx =? 0).

(** Lines 194-196: the human places a mark and the outcome is recomputed. *)
Definition human_place (idx : nat) (st : State) : State :=
  update_outcome (set_cell st idx (currentPlayer st)).

Definition Click (fuel : nat) (idx : nat) (st : State) : option State :=
  let st1 := human_place idx st in
  if negb (gameOver st1) then
    if aiEnabled st1 then AIMove_Negamax fuel (set_currentPlayer st1 2)
    else Some (set_currentPlayer st1 (if currentPlayer st1 =? 1 then 2 else 1))
  else Some st1.

(** What [RenderGame] shows (lines 232-240). *)
Inductive Outcome := InProgress | Draw | Win (p : Z).

Definition outcome (st : State) : Outcome :=
  if negb (gameOver st) then InProgress
  else if winner st =? 0 then Draw else Win (winner st).

(** ** Predicates used to state the properties *)

(** Number of empty cells: the measure that bounds the search depth. *)
Fixpoint count_empty (bd : list Z) : nat :=
  match bd with
  | [] => O
  | v :: rest => if v =? 0 then S (count_empty rest) else count_empty rest
  end.

(** A board is an array of 9 cells; it is well formed when every cell
    holds 0, 1 or 2. *)
Definition valid_cell (c : Z) : bool := (c =? 0) || (c =? 1) || (c =? 2).

Definition wf_board (bd : list Z) : bool :=
  (length bd =? 9)%nat && forallb valid_cell bd.

(** The three cells of [line] are equal and non-empty (the test of line 68). *)
Definition line_matches (bd : list Z) (line : nat * nat * nat) : bool :=
  let '(l0, l1, l2) := line in
  negb (bd !!! l0 =? 0) && (bd !!! l0 =? bd !!! l1) && (bd !!! l1 =? bd !!! l2).

(** The three cells of [line] all hold [p]. *)
Definition line_owned (bd : list Z) (p : Z) (line : nat * nat * nat) : bool :=
  let '(l0, l1, l2) := line in
  (bd !!! l0 =? p) && (bd !!! l1 =? p) && (bd !!! l2 =? p).

(** Player [p] has a completed winning triplet. *)
Definition has_line (bd : list Z) (p : Z) : bool := existsb (line_owned bd p) WINS.

(** The mark a side places: [(side == +1) ? 1 : 2]. *)
Definition mark (side : Z) : Z := if side =? 1 then 1 else 2.

(** ** Play

    The expression of lines 152 and 196 that decides whether the game
    is over, as a function of the board. *)
Definition game_over (bd : list Z) : bool :=
  negb (CheckWinnerRaw bd =? 0) || BoardFull bd.

(** The turn toggle of line 205. *)
Definition other (p : Z) : Z := if p =? 1 then 2 else 1.

(** Boards produced by legal alternating play, with the player whose
    turn it is: X starts on the empty board; while the game is not over
    the player to move marks an empty cell and the turn passes. *)
Inductive played : list Z -> Z -> Prop :=
| played_start : played (replicate 9 0) 1
| played_move bd p idx :
    played bd p -> game_over bd = false ->
    (idx < 9)%nat -> bd !!! idx = 0 ->
    played (<[idx := p]> bd) (other p).

(** The events of one frame of [RenderGame]: the Reset button, the
    "Play vs AI" checkbox, or a click on a cell that is not disabled. *)
Definition set_aiEnabled (st : State) (a : bool) : State :=
  mkState (board st) (currentPlayer st) (gameOver st) (winner st) a.

Inductive step : State -> State -> Prop :=
| step_reset st : step st (ResetGame st)
| step_checkbox st : step st (set_aiEnabled st (negb (aiEnabled st)))
| step_click st idx fuel st' :
    (idx < 9)%nat -> disabled st idx = false ->
    Click fuel idx st = Some st' -> step st st'.

(** States the program can be in between two frames, from [GameStartUp]. *)
Inductive reachable : State -> Prop :=
| reachable_start : reachable (GameStartUp init_state)
| reachable_step st st' : reachable st -> step st st' -> reachable st'.

(** ** The exhaustive search of the specification

    Written from the specification's description of [evaluate], not from
    the code: a negamax over immutable board snapshots that visits every
    empty cell in index order 0..8 and keeps the maximum of the negated
    child values, with no preference order and no early exit.  A position
    with a completed triplet is worth +1 to the triplet's owner (the side
    that just moved) and -1 to the other side; a full board with no
    triplet is worth 0.  It is the reference the code's [Negamax] is
    compared with. *)

Fixpoint NegamaxRef_loop (rec : Z -> list Z -> option Z)
    (side : Z) (cells : list nat) (best : Z) (bd : list Z) : option Z :=
  match cells with
  | [] => Some best
  | idx :: rest =>
      if bd !!! idx =? 0 then
        match rec (- side) (<[idx := mark side]> bd) with
        | None => None
        | Some r => NegamaxRef_loop rec side rest (Z.max best (- r)) bd
        end
      else NegamaxRef_loop rec side rest best bd
  end.

Fixpoint NegamaxRef (fuel : nat) (side : Z) (bd : list Z) : option Z :=
  match fuel with
  | O => None
  | S fuel' =>
      let w := CheckWinnerSigned bd in
      if negb (w =? 0) then Some (if w =? side then 1 else -1)
      else if BoardFull bd then Some 0
      else NegamaxRef_loop (NegamaxRef fuel') side (seq 0 9) INT_MIN bd
  end.

(** ** Forced outcomes

    The game-theoretic meaning of a position, independent of any search
    procedure.  [side] (+1 for X, -1 for O) is the player to move.

    [Lost side bd]: the player to move loses against best play: either
    the opponent has already completed a triplet, or the game goes on
    (no triplet, some empty cell) and every move hands the opponent a
    won position.

    [Won side bd]: the game goes on and the player to move has a move
    after which the opponent is lost. *)

Inductive Lost : Z -> list Z -> Prop :=
| Lost_line side bd :
    has_line bd (mark (- side)) = true -> Lost side bd
| Lost_all side bd :
    has_line bd 1 = false -> has_line bd 2 = false ->
    (exists i, (i < 9)%nat /\ bd !!! i = 0) ->
    (forall i, (i < 9)%nat -> bd !!! i = 0 ->
               Won (- side) (<[i := mark side]> bd)) ->
    Lost side bd
with Won : Z -> list Z -> Prop :=
| Won_move side bd i :
    has_line bd 1 = false -> has_line bd 2 = false ->
    (i < 9)%nat -> bd !!! i = 0 ->
    Lost (- side) (<[i := mark side]> bd) ->
    Won side bd.

(** ** Further predicates

    Number of cells holding the mark [m]. *)
Fixpoint count_mark (bd : list Z) (m : Z) : nat :=
  match bd with
  | [] => O
  | v :: rest => if v =? m then S (count_mark rest m) else count_mark rest m
  end.

(** Exchange of the two marks: X becomes O and O becomes X on every
    cell; the other fields are kept. *)
Definition swap_cell (c : Z) : Z := if c =? 1 then 2 else if c =? 2 then 1 else c.

Definition swap_board (bd : list Z) : list Z := swap_cell <$> bd.

Definition swap_state (st : State) : State :=
  mkState (swap_board (board st)) (currentPlayer st) (gameOver st)
          (winner st) (aiEnabled st).

(** States reached from [GameStartUp] when the "Play vs AI" checkbox is
    left as it starts (ticked): only Reset and cell clicks happen. *)
Inductive reachable_ai : State -> Prop :=
| reachable_ai_start : reachable_ai (GameStartUp init_state)
| reachable_ai_reset st : reachable_ai st -> reachable_ai (ResetGame st)
| reachable_ai_click st idx fuel st' :
    reachable_ai st ->
    (idx < 9)%nat -> disabled st idx = false ->
    Click fuel idx st = Some st' -> reachable_ai st'.

(** A run of [n] successive clicks, each on a cell that is not
    disabled, with no Reset and no checkbox change in between. *)
Inductive click_run : State -> nat -> State -> Prop :=
| click_run_done st : click_run st O st
| click_run_click st idx fuel st1 n st2 :
    (idx < 9)%nat -> disabled st idx = false ->
    Click fuel idx st = Some st1 ->
    click_run st1 n st2 -> click_run st (S n) st2.

(** ** Game.h: the inline accessors of class [Game]

    Only the members the inline accessors read are kept: the player
    vector [_players], [_score] and [_gameOptions].  A [Player*] is
    modelled as [option P]: [None] is the null pointer, [Some p] points
    to the player [p]; the embedding is generic in [P].  A call either
    returns a value, throws [std::out_of_range] (from
    [std::vector::at]) or has undefined behaviour (a remainder by
    zero). *)

Record GameOptions := mkGameOptions {
  AIPlaying : bool;
  numberOfPlayers : Z;
  AIPlayer : Z;
  rowX : Z;
  rowY : Z;
  gameNumber : Z;
  currentTurnNo : Z;        (* unsigned int *)
  score : Z;
  AIDepthSearches : Z;
  AIMAXDepth : Z;
  AIvsAI : bool
}.

Record Game (P : Type) := mkGame {
  _players : list (option P);     (* std::vector<Player*> *)
  _score : Z;
  _gameOptions : GameOptions
}.

Arguments _players {P} _.
Arguments _score {P} _.
Arguments _gameOptions {P} _.

Inductive call (A : Type) : Type :=
| Returns (a : A)
| Throws_out_of_range
| Undefined_behaviour.

Arguments Returns {A} a.
Arguments Throws_out_of_range {A}.
Arguments Undefined_behaviour {A}.

(** [std::vector::at]: bounds-checked access. *)
Definition vector_at {A : Type} (v : list A) (i : nat) : call A :=
  match v !! i with
  | Some x => Returns x
  | None => Throws_out_of_range
  end.

(** [getPlayerAt(playerNumber)]. *)
Definition getPlayerAt {P : Type} (g : Game P) (playerNumber : nat) : call (option P) :=
  vector_at (_players g) playerNumber.

(** [getCurrentPlayer()]: [nullptr] when [numberOfPlayers] is not
    positive, else the pointer stored at
    [currentTurnNo % _players.size()], as it is stored. *)
Definition getCurrentPlayer {P : Type} (g : Game P) : call (option P) :=
  if numberOfPlayers (_gameOptions g) >? 0 then
    let size := Z.of_nat (length (_players g)) in
    if size =? 0 then Undefined_behaviour
    else vector_at (_players g) (Z.to_nat (currentTurnNo (_gameOptions g) mod size))
  else Returns None.

(** The game with the turn counter set to [t]. *)
Definition with_turn {P : Type} (g : Game P) (t : Z) : Game P :=
  let o := _gameOptions g in
  mkGame P (_players g) (_score g)
    (mkGameOptions (AIPlaying o) (numberOfPlayers o) (AIPlayer o) (rowX o) (rowY o)
       (gameNumber o) t (score o) (AIDepthSearches o) (AIMAXDepth o) (AIvsAI o)).

(** A game with two player slots, the second one null, at turn 5. *)
Definition ex_game : Game Z :=
  mkGame Z [Some 10; None] 0 (mkGameOptions false 2 (-1) 3 3 0 5 0 0 0 false).

(** ** Sample states

    Concrete states on which the theorems below are instantiated. *)

(** O to move; O completes the middle row by taking cell 5. *)
Definition ex_o_to_move : State := mkState [1; 1; 0; 2; 2; 0; 1; 0; 0] 2 false 0 true.

(** X and O each have two in a row with the third cell free. *)
Definition ex_double_threat : State := mkState [1; 1; 0; 2; 2; 0; 0; 0; 0] 1 false 0 true.

(** X has completed the top row. *)
Definition ex_x_won : State := mkState [1; 1; 1; 2; 2; 0; 0; 0; 0] 1 true 1 true.

(** A full board with no triplet. *)
Definition ex_draw : State := mkState [1; 2; 1; 1; 2; 2; 2; 1; 1] 2 true 0 true.

(** Three marks placed, six cells empty. *)
Definition ex_midgame : State := mkState [1; 0; 0; 0; 2; 0; 0; 0; 1] 2 false 0 true.

(** X has completed the middle row, the second triplet of [WINS]. *)
Definition ex_middle_row : State := mkState [2; 2; 0; 1; 1; 1; 2; 0; 1] 2 false 0 true.

(** The state after X clicks the centre of a fresh board and the AI
    answers in the top-left corner. *)
Definition ex_after_center : State := mkState [2; 0; 0; 0; 1; 0; 0; 0; 0] 1 false 0 true.

(** A two-player game after X took the centre: O is to move. *)
Definition ex_two_player_o_turn : State :=
  mkState [0; 0; 0; 0; 1; 0; 0; 0; 0] 2 false 0 false.

(** A full board with no triplet and the game-over flag still clear. *)
Definition ex_full_flag_clear : State :=
  mkState [1; 2; 1; 1; 2; 2; 2; 1; 1] 2 false 0 true.

(** O has completed the middle row. *)
Definition ex_o_won : State := mkState [1; 1; 0; 2; 2; 2; 1; 0; 0] 2 true 2 true.

(** A two-player game that X has won with the top row. *)
Definition ex_two_player_x_won : State :=
  mkState [1; 1; 1; 2; 2; 0; 0; 0; 0] 1 true 1 false.

(** ** Basic facts about cells and updates *)

Lemma set_cell_board st idx v : board (set_cell st idx v) = <[idx := v]> (board st).
Proof. reflexivity. Qed.

Lemma set_cell_undo st idx v :
  (idx < length (board st))%nat -> board st !!! idx = 0 ->
  set_cell (set_cell st idx v) idx 0 = st.
Proof.
  intros Hlt H0. destruct st as [bd cp go w ai]; unfold set_cell; simpl in *.
  f_equal. rewrite list_insert_insert_eq. apply list_insert_id.
  rewrite <- H0. by apply list_lookup_lookup_total_lt.
Qed.

Lemma lookup_total_cons_S (x : Z) (l : list Z) (i : nat) : (x :: l) !!! S i = l !!! i.
Proof. reflexivity. Qed.

Lemma count_empty_insert (bd : list Z) (i : nat) (m : Z) :
  (i < length bd)%nat -> bd !!! i = 0 -> m <> 0 ->
  S (count_empty (<[i := m]> bd)) = count_empty bd.
Proof.
  revert i. induction bd as [|x bd IH]; intros i Hlt H0 Hm; simpl in *; [lia|].
  destruct i as [|i]; simpl.
  - change ((x :: bd) !!! 0%nat) with x in H0. subst x. simpl.
    destruct (m =? 0) eqn:E; [lia | reflexivity].
  - rewrite lookup_total_cons_S in H0.
    destruct (x =? 0); rewrite <- (IH i) by (lia || assumption); reflexivity.
Qed.

Lemma BoardFull_spec (bd : list Z) :
  BoardFull bd = true <-> forall i, (i < length bd)%nat -> bd !!! i <> 0.
Proof.
  induction bd as [|x bd IH]; simpl.
  - split; [intros _ i Hi; lia | reflexivity].
  - destruct (x =? 0) eqn:E.
    + split; [discriminate|]. intros H. exfalso. apply (H 0%nat); [lia|].
      change ((x :: bd) !!! 0%nat) with x. lia.
    + rewrite IH. split.
      * intros H [|i] Hi; [change ((x :: bd) !!! 0%nat) with x; lia|].
        rewrite lookup_total_cons_S. apply H. lia.
      * intros H i Hi. specialize (H (S i)). rewrite lookup_total_cons_S in H.
        apply H. lia.
Qed.

Lemma BoardFull_count (bd : list Z) : BoardFull bd = true <-> count_empty bd = O.
Proof.
  induction bd as [|x bd IH]; simpl; [tauto|].
  destruct (x =? 0); [split; discriminate | exact IH].
Qed.

Lemma not_full_empty_cell (bd : list Z) :
  BoardFull bd = false -> exists i, (i < length bd)%nat /\ bd !!! i = 0.
Proof.
  induction bd as [|x bd IH]; simpl; [discriminate|].
  destruct (x =? 0) eqn:E.
  - intros _. exists 0%nat. split; [lia|]. change ((x :: bd) !!! 0%nat) with x. lia.
  - intros H. destruct (IH H) as (i & Hi & H0). exists (S i). split; [lia|].
    by rewrite lookup_total_cons_S.
Qed.

Lemma wf_board_length bd : wf_board bd = true -> length bd = 9%nat.
Proof. unfold wf_board. intros H. apply andb_true_iff in H as [H _]. by apply Nat.eqb_eq. Qed.

Lemma wf_board_cell bd i :
  wf_board bd = true -> (i < 9)%nat -> bd !!! i = 0 \/ bd !!! i = 1 \/ bd !!! i = 2.
Proof.
  intros H Hi. pose proof (wf_board_length _ H) as Hlen.
  unfold wf_board in H. apply andb_true_iff in H as [_ H].
  rewrite forallb_forall in H.
  assert (In (bd !!! i) bd) as Hin.
  { apply list_elem_of_In, list_elem_of_lookup. exists i.
    apply list_lookup_lookup_total_lt. lia. }
  specialize (H _ Hin). unfold valid_cell in H.
  repeat (apply orb_true_iff in H as [H|H]); lia.
Qed.

Lemma wf_board_insert bd i m :
  wf_board bd = true -> valid_cell m = true -> wf_board (<[i := m]> bd) = true.
Proof.
  unfold wf_board. intros H Hm. apply andb_true_iff in H as [Hl H].
  apply andb_true_iff. split; [by rewrite length_insert|].
  clear Hl. revert i. induction bd as [|x bd IH]; intros i; [reflexivity|].
  simpl in H. apply andb_true_iff in H as [Hx H].
  destruct i as [|i]; simpl; apply andb_true_iff; split; auto.
Qed.

(** ** The winner scan *)

Lemma CheckWinnerRaw_loop_none lines bd :
  (forall l, In l lines -> line_matches bd l = false) ->
  CheckWinnerRaw_loop lines bd = 0.
Proof.
  induction lines as [|[[l0 l1] l2] rest IH]; intros H; simpl; [reflexivity|].
  pose proof (H (l0, l1, l2) (or_introl eq_refl)) as Hm. simpl in Hm. rewrite Hm.
  apply IH. intros l Hl. apply H. by right.
Qed.

Lemma CheckWinnerRaw_loop_first pre l0 l1 l2 post bd :
  (forall l, In l pre -> line_matches bd l = false) ->
  line_matches bd (l0, l1, l2) = true ->
  CheckWinnerRaw_loop (pre ++ (l0, l1, l2) :: post) bd = bd !!! l0.
Proof.
  induction pre as [|[[p0 p1] p2] pre IH]; intros Hpre Hm; simpl.
  - simpl in Hm. by rewrite Hm.
  - pose proof (Hpre (p0, p1, p2) (or_introl eq_refl)) as Hp. simpl in Hp. rewrite Hp.
    apply IH; [|assumption]. intros l Hl. apply Hpre. by right.
Qed.

(** The scan either finds no matching triplet and yields 0, or stops at
    the first matching one and yields its (non-zero) content. *)
Lemma CheckWinnerRaw_loop_cases lines bd :
  ((forall l, In l lines -> line_matches bd l = false) /\
   CheckWinnerRaw_loop lines bd = 0)
  \/
  (exists pre l0 l1 l2 post,
      lines = pre ++ (l0, l1, l2) :: post /\
      (forall l, In l pre -> line_matches bd l = false) /\
      line_matches bd (l0, l1, l2) = true /\
      CheckWinnerRaw_loop lines bd = bd !!! l0 /\ bd !!! l0 <> 0).
Proof.
  induction lines as [|[[l0 l1] l2] rest IH].
  - left. split; [intros l []|reflexivity].
  - destruct (line_matches bd (l0, l1, l2)) eqn:Hm.
    + right. exists [], l0, l1, l2, rest. repeat split; try assumption.
      * intros l [].
      * simpl. simpl in Hm. by rewrite Hm.
      * simpl in Hm. intros E. rewrite E in Hm. discriminate.
    + destruct IH as [[Hall Hz] | (pre & a & b & c & post & -> & Hpre & Hl & Hv & Hnz)].
      * left. split.
        -- intros l [<-|Hl]; [assumption | by apply Hall].
        -- simpl. simpl in Hm. by rewrite Hm.
      * right. exists ((l0, l1, l2) :: pre), a, b, c, post. repeat split; try assumption.
        -- intros l [<-|Hin]; [assumption | by apply Hpre].
        -- simpl. simpl in Hm. by rewrite Hm.
Qed.

Lemma line_matches_owned bd l0 l1 l2 :
  line_matches bd (l0, l1, l2) = true -> line_owned bd (bd !!! l0) (l0, l1, l2) = true.
Proof.
  simpl. intros H. apply andb_true_iff in H as [H H2]. apply andb_true_iff in H as [_ H1].
  apply Z.eqb_eq in H1, H2. rewrite <- H2, <- H1, Z.eqb_refl. reflexivity.
Qed.

Lemma line_owned_matches bd p l :
  p <> 0 -> line_owned bd p l = true -> line_matches bd l = true.
Proof.
  destruct l as [[l0 l1] l2]. simpl. intros Hp H.
  apply andb_true_iff in H as [H H2]. apply andb_true_iff in H as [H0 H1].
  apply Z.eqb_eq in H0, H1, H2. rewrite H0, H1, H2, Z.eqb_refl.
  destruct (p =? 0) eqn:E; [lia | reflexivity].
Qed.

Lemma CheckWinnerRaw_has_line bd :
  CheckWinnerRaw bd <> 0 -> has_line bd (CheckWinnerRaw bd) = true.
Proof.
  unfold CheckWinnerRaw, has_line. intros Hw.
  destruct (CheckWinnerRaw_loop_cases WINS bd)
    as [[_ Hz] | (pre & a & b & c & post & E & _ & Hl & Hv & _)]; [congruence|].
  rewrite Hv. apply existsb_exists. exists (a, b, c). split.
  - rewrite E. apply in_or_app. right. by left.
  - by apply line_matches_owned.
Qed.

Lemma has_line_CheckWinnerRaw bd p :
  p <> 0 -> has_line bd p = true -> CheckWinnerRaw bd <> 0.
Proof.
  unfold CheckWinnerRaw, has_line. intros Hp H.
  apply existsb_exists in H as (l & Hin & Ho).
  destruct (CheckWinnerRaw_loop_cases WINS bd)
    as [[Hall _] | (pre & a & b & c & post & E & _ & Hl & Hv & Hnz)].
  - specialize (Hall l Hin). rewrite (line_owned_matches _ _ _ Hp Ho) in Hall.
    discriminate.
  - congruence.
Qed.

Lemma CheckWinnerSigned_cases bd :
  (CheckWinnerSigned bd = 1 /\ CheckWinnerRaw bd = 1) \/
  (CheckWinnerSigned bd = -1 /\ CheckWinnerRaw bd = 2) \/
  (CheckWinnerSigned bd = 0 /\ CheckWinnerRaw bd <> 1 /\ CheckWinnerRaw bd <> 2).
Proof.
  unfold CheckWinnerSigned.
  destruct (CheckWinnerRaw bd =? 1) eqn:E1; [left; lia|].
  destruct (CheckWinnerRaw bd =? 2) eqn:E2; [right; left; lia|].
  right; right; lia.
Qed.

(** On a well-formed board the raw winner is 0, 1 or 2. *)
Lemma CheckWinnerRaw_wf bd :
  wf_board bd = true ->
  CheckWinnerRaw bd = 0 \/ CheckWinnerRaw bd = 1 \/ CheckWinnerRaw bd = 2.
Proof.
  intros Hwf. unfold CheckWinnerRaw.
  destruct (CheckWinnerRaw_loop_cases WINS bd)
    as [[_ Hz] | (pre & a & b & c & post & E & _ & _ & Hv & _)]; [by left|].
  rewrite Hv. apply wf_board_cell; [assumption|].
  assert (In (a, b, c) WINS) as Hin by (rewrite E; apply in_or_app; right; by left).
  unfold WINS in Hin. simpl in Hin.
  repeat (destruct Hin as [Hin|Hin]; [inversion Hin; lia|]). destruct Hin.
Qed.

Lemma has_line_false_CheckWinnerRaw bd :
  wf_board bd = true -> has_line bd 1 = false -> has_line bd 2 = false ->
  CheckWinnerRaw bd = 0.
Proof.
  intros Hwf H1 H2.
  destruct (CheckWinnerRaw_wf bd Hwf) as [H|[H|H]]; [assumption| |];
    assert (CheckWinnerRaw bd <> 0) as Hnz by lia;
    apply CheckWinnerRaw_has_line in Hnz; rewrite H in Hnz; congruence.
Qed.

(** ** The search loop

    [Negamax_loop_spec] describes one run of the loop of [Negamax] when
    every recursive call on a child position returns a value in [-1..1]
    and leaves the child state as it found it: the loop then returns, it
    restores the state, and its result is the maximum of [best] and the
    negated child values. *)

Section NegamaxLoop.
Variable rec : Z -> State -> option (Z * State).
Variable side : Z.
Variable st : State.

Hypothesis Hlen : length (board st) = 9%nat.
Hypothesis Hrec : forall idx, (idx < 9)%nat -> board st !!! idx = 0 ->
  exists r, rec (- side) (set_cell st idx (mark side))
              = Some (r, set_cell st idx (mark side)) /\ -1 <= r <= 1.

Lemma Negamax_loop_spec order best :
  (forall i, In i order -> (i < 9)%nat) -> best <= 1 ->
  exists v,
    Negamax_loop rec side order best st = Some (v, st) /\
    best <= v <= 1 /\
    (forall idx r st', In idx order -> board st !!! idx = 0 ->
       rec (- side) (set_cell st idx (mark side)) = Some (r, st') -> - r <= v) /\
    (v = best \/
     exists idx, In idx order /\ board st !!! idx = 0 /\
       rec (- side) (set_cell st idx (mark side))
         = Some (- v, set_cell st idx (mark side))).
Proof.
  revert best. induction order as [|idx rest IH]; intros best Hord Hbest.
  - exists best. simpl. split; [reflexivity|]. split; [lia|].
    split; [intros ? ? ? []|by left].
  - assert (idx < 9)%nat as Hidx by (apply Hord; by left).
    assert (forall i, In i rest -> (i < 9)%nat) as Hrest
      by (intros i Hi; apply Hord; by right).
    simpl. destruct (board st !!! idx =? 0) eqn:E0; simpl.
    + apply Z.eqb_eq in E0.
      destruct (Hrec idx Hidx E0) as (r & Hr & Hrange).
      fold (mark side). rewrite Hr.
      rewrite set_cell_undo by (assumption || lia).
      set (best' := if - r >? best then - r else best).
      assert (best <= best' /\ - r <= best' /\ best' <= 1 /\
              (best' = best \/ best' = - r)) as (Hb1 & Hb2 & Hb3 & Hb4).
      { unfold best'. destruct (- r >? best) eqn:E; lia. }
      destruct (best' =? 1) eqn:E1.
      * apply Z.eqb_eq in E1. exists best'.
        split; [reflexivity|]. split; [lia|]. split.
        -- intros i r' st' Hin Hi Hr'.
           assert (i < 9)%nat as Hi9 by (by apply Hord).
           destruct (Hrec i Hi9 Hi) as (r'' & Hr'' & Hrange'').
           rewrite Hr'' in Hr'. inversion Hr'; subst. lia.
        -- destruct Hb4 as [Hb4|Hb4]; [by left|]. right. exists idx.
           split; [by left|]. split; [assumption|]. rewrite Hr.
           do 2 f_equal. lia.
      * destruct (IH best' Hrest Hb3) as (v & Hv & Hvr & HA & HB).
        exists v. split; [assumption|]. split; [lia|]. split.
        -- intros i r' st' [<-|Hin] Hi Hr'.
           ++ rewrite Hr in Hr'. inversion Hr'; subst. lia.
           ++ by apply (HA i r' st').
        -- destruct HB as [HB | (i & Hin & Hi & Hri)].
           ++ destruct Hb4 as [Hb4|Hb4]; [left; lia|]. right. exists idx.
              split; [by left|]. split; [assumption|]. rewrite Hr.
              do 2 f_equal. lia.
           ++ right. exists i. split; [by right|]. by split.
    + destruct (IH best Hrest Hbest) as (v & Hv & Hvr & HA & HB).
      exists v. split; [assumption|]. split; [lia|]. split.
      * intros i r' st' [<-|Hin] Hi Hr'; [lia|]. by apply (HA i r' st').
      * destruct HB as [HB | (i & Hin & Hi & Hri)]; [by left|].
        right. exists i. split; [by right|]. by split.
Qed.
End NegamaxLoop.

Lemma ORDER_complete i : (i < 9)%nat <-> In i ORDER.
Proof.
  unfold ORDER. simpl. split.
  - intros H. do 9 (destruct i as [|i]; [tauto|]). lia.
  - intros H. repeat (destruct H as [<-|H]; [lia|]). destruct H.
Qed.

Lemma mark_nonzero side : mark side <> 0.
Proof. unfold mark. destruct (side =? 1); lia. Qed.

Lemma mark_valid side : valid_cell (mark side) = true.
Proof. unfold mark. destruct (side =? 1); reflexivity. Qed.

(** A child position has one empty cell less than its parent. *)
Lemma child_count_empty st idx m :
  length (board st) = 9%nat -> (idx < 9)%nat -> board st !!! idx = 0 -> m <> 0 ->
  S (count_empty (board (set_cell st idx m))) = count_empty (board st).
Proof. intros Hlen Hidx H0 Hm. rewrite set_cell_board. apply count_empty_insert; lia || assumption. Qed.

(** ** Termination, frame and range of [Negamax] *)

Lemma Negamax_unfold fuel side st :
  Negamax (S fuel) side st =
    if negb (CheckWinnerSigned (board st) =? 0) then
      Some ((if CheckWinnerSigned (board st) =? side then 1 else -1), st)
    else if BoardFull (board st) then Some (0, st)
    else Negamax_loop (Negamax fuel) side ORDER INT_MIN st.
Proof. reflexivity. Qed.

Lemma Negamax_winner fuel side st :
  CheckWinnerSigned (board st) <> 0 ->
  Negamax (S fuel) side st =
    Some ((if CheckWinnerSigned (board st) =? side then 1 else -1), st).
Proof.
  intros Hs. rewrite Negamax_unfold.
  destruct (CheckWinnerSigned (board st) =? 0) eqn:E; [lia | reflexivity].
Qed.

Lemma Negamax_full fuel side st :
  CheckWinnerSigned (board st) = 0 -> BoardFull (board st) = true ->
  Negamax (S fuel) side st = Some (0, st).
Proof.
  intros Hs Hfull. rewrite Negamax_unfold, Hs, Hfull. reflexivity.
Qed.

(** With more fuel than empty cells, [Negamax] returns; it returns the
    state it was given and a value in [-1..1]. *)
Lemma Negamax_frame_total fuel : forall side st,
  length (board st) = 9%nat -> (count_empty (board st) < fuel)%nat ->
  exists v, Negamax fuel side st = Some (v, st) /\ -1 <= v <= 1.
Proof.
  induction fuel as [|fuel IH]; intros side st Hlen Hfuel; [lia|].
  rewrite Negamax_unfold.
  destruct (CheckWinnerSigned (board st) =? 0) eqn:Ew; cbn [negb].
  - destruct (BoardFull (board st)) eqn:Efull.
    + exists 0. split; [reflexivity | lia].
    + assert (forall idx, (idx < 9)%nat -> board st !!! idx = 0 ->
        exists r, Negamax fuel (- side) (set_cell st idx (mark side))
                    = Some (r, set_cell st idx (mark side)) /\ -1 <= r <= 1) as Hrec.
      { intros idx Hidx H0. apply IH.
        - rewrite set_cell_board, length_insert. assumption.
        - pose proof (child_count_empty st idx (mark side) Hlen Hidx H0
                        (mark_nonzero side)). lia. }
      destruct (Negamax_loop_spec (Negamax fuel) side st Hlen Hrec ORDER INT_MIN)
        as (v & Hv & Hvr & HA & _).
      { intros i Hi. by apply ORDER_complete. }
      { unfold INT_MIN. lia. }
      exists v. split; [assumption|]. split; [|lia].
      destruct (not_full_empty_cell _ Efull) as (i & Hi & Hi0). rewrite Hlen in Hi.
      destruct (Hrec i Hi Hi0) as (r & Hr & Hrr).
      specialize (HA i r _ (proj1 (ORDER_complete i) Hi) Hi0 Hr). lia.
  - exists (if CheckWinnerSigned (board st) =? side then 1 else -1).
    split; [reflexivity|]. destruct (CheckWinnerSigned (board st) =? side); lia.
Qed.

(** More fuel never changes a result. *)
Lemma Negamax_loop_mono (rec rec' : Z -> State -> option (Z * State)) side :
  (forall s st x, rec s st = Some x -> rec' s st = Some x) ->
  forall order best st x,
    Negamax_loop rec side order best st = Some x ->
    Negamax_loop rec' side order best st = Some x.
Proof.
  intros Hsub. induction order as [|idx rest IH]; intros best st x; simpl; [auto|].
  destruct (negb (board st !!! idx =? 0)); [apply IH|].
  destruct (rec (- side) _) as [[r st2]|] eqn:Er; [|discriminate].
  rewrite (Hsub _ _ _ Er).
  destruct ((if - r >? best then - r else best) =? 1); [auto | apply IH].
Qed.

Lemma Negamax_fuel_mono fuel : forall fuel' side st x,
  (fuel <= fuel')%nat -> Negamax fuel side st = Some x -> Negamax fuel' side st = Some x.
Proof.
  induction fuel as [|fuel IH]; intros fuel' side st x Hle; [discriminate|].
  destruct fuel' as [|fuel']; [lia|]. rewrite !Negamax_unfold.
  destruct (negb (CheckWinnerSigned (board st) =? 0)); [auto|].
  destruct (BoardFull (board st)); [auto|].
  apply Negamax_loop_mono. intros s st0 y. apply IH. lia.
Qed.

(** Whatever the fuel, a run of [Negamax] that returns leaves the state
    as it was. *)
Lemma Negamax_frame fuel side st v st' :
  length (board st) = 9%nat -> Negamax fuel side st = Some (v, st') -> st' = st.
Proof.
  intros Hlen Hrun.
  set (big := (fuel + S (count_empty (board st)))%nat).
  pose proof (Negamax_fuel_mono fuel big side st _ ltac:(lia) Hrun) as Hbig.
  destruct (Negamax_frame_total big side st Hlen ltac:(lia)) as (v' & Hv' & _).
  congruence.
Qed.

(** ** The selection loop of [AIMove_Negamax]

    Under the same assumption on the calls to [Negamax], the loop
    returns the state it was given, [bestVal] is the maximum of the
    negated child values, and [bestMove] is an empty cell that attains
    it (or the initial [bestMove] when nothing beat the initial
    [bestVal]). *)

Section AIMoveLoop.
Variable fuel : nat.
Variable st : State.

Hypothesis Hlen : length (board st) = 9%nat.
Hypothesis Hrec : forall idx, (idx < 9)%nat -> board st !!! idx = 0 ->
  exists r, Negamax fuel 1 (set_cell st idx 2) = Some (r, set_cell st idx 2)
            /\ -1 <= r <= 1.

Lemma AIMove_loop_spec order bestVal bestMove :
  (forall i, In i order -> (i < 9)%nat) -> bestVal <= 1 ->
  exists bv bm,
    AIMove_loop fuel order bestVal bestMove st = Some (bv, bm, st) /\
    bestVal <= bv <= 1 /\
    (forall idx r st', In idx order -> board st !!! idx = 0 ->
       Negamax fuel 1 (set_cell st idx 2) = Some (r, st') -> - r <= bv) /\
    ((bv = bestVal /\ bm = bestMove) \/
     (bestVal < bv /\
      exists idx, In idx order /\ bm = Z.of_nat idx /\ board st !!! idx = 0 /\
        Negamax fuel 1 (set_cell st idx 2) = Some (- bv, set_cell st idx 2))).
Proof.
  revert bestVal bestMove.
  induction order as [|idx rest IH]; intros bestVal bestMove Hord Hbest.
  - exists bestVal, bestMove. simpl. split; [reflexivity|]. split; [lia|].
    split; [intros ? ? ? []|by left].
  - assert (idx < 9)%nat as Hidx by (apply Hord; by left).
    assert (forall i, In i rest -> (i < 9)%nat) as Hrest
      by (intros i Hi; apply Hord; by right).
    simpl. destruct (board st !!! idx =? 0) eqn:E0; simpl.
    + apply Z.eqb_eq in E0.
      destruct (Hrec idx Hidx E0) as (r & Hr & Hrange).
      rewrite Hr. rewrite set_cell_undo by (assumption || lia).
      assert (Negamax fuel 1 (set_cell st idx 2)
              = Some (- - r, set_cell st idx 2)) as Hr'
        by (rewrite Hr; do 2 f_equal; lia).
      destruct (- r >? bestVal) eqn:Egt.
      * destruct (- r =? 1) eqn:E1.
        -- exists (- r), (Z.of_nat idx).
           split; [reflexivity|]. split; [lia|]. split.
           ++ intros i r' st' Hin Hi Hri.
              assert (i < 9)%nat as Hi9 by (by apply Hord).
              destruct (Hrec i Hi9 Hi) as (r'' & Hr'' & Hrange'').
              rewrite Hr'' in Hri. inversion Hri; subst. lia.
           ++ right. split; [lia|]. exists idx.
              split; [by left|]. by repeat split.
        -- destruct (IH (- r) (Z.of_nat idx) Hrest ltac:(lia))
             as (bv & bm & Hrun & Hbr & HA & HB).
           exists bv, bm. split; [assumption|]. split; [lia|]. split.
           ++ intros i r' st' [<-|Hin] Hi Hri.
              ** rewrite Hr in Hri. inversion Hri; subst. lia.
              ** by apply (HA i r' st').
           ++ right. split; [lia|].
              destruct HB as [[-> ->] | (_ & i & Hin & Hbm & Hi & Hri)].
              ** exists idx. split; [by left|]. by repeat split.
              ** exists i. split; [by right|]. by repeat split.
      * destruct (IH bestVal bestMove Hrest Hbest)
          as (bv & bm & Hrun & Hbr & HA & HB).
        exists bv, bm. split; [assumption|]. split; [lia|]. split.
        -- intros i r' st' [<-|Hin] Hi Hri.
           ++ rewrite Hr in Hri. inversion Hri; subst. lia.
           ++ by apply (HA i r' st').
        -- destruct HB as [HB | (Hlt & i & Hin & Hbm & Hi & Hri)]; [by left|].
           right. split; [assumption|]. exists i. split; [by right|]. by repeat split.
    + destruct (IH bestVal bestMove Hrest Hbest)
        as (bv & bm & Hrun & Hbr & HA & HB).
      exists bv, bm. split; [assumption|]. split; [lia|]. split.
      * intros i r' st' [<-|Hin] Hi Hri; [lia|]. by apply (HA i r' st').
      * destruct HB as [HB | (Hlt & i & Hin & Hbm & Hi & Hri)]; [by left|].
        right. split; [assumption|]. exists i. split; [by right|]. by repeat split.
Qed.
End AIMoveLoop.

(** ** The exhaustive reference search *)

Lemma NegamaxRef_unfold fuel side bd :
  NegamaxRef (S fuel) side bd =
    if negb (CheckWinnerSigned bd =? 0) then
      Some (if CheckWinnerSigned bd =? side then 1 else -1)
    else if BoardFull bd then Some 0
    else NegamaxRef_loop (NegamaxRef fuel) side (seq 0 9) INT_MIN bd.
Proof. reflexivity. Qed.

Section NegamaxRefLoop.
Variable rec : Z -> list Z -> option Z.
Variable side : Z.
Variable bd : list Z.

Hypothesis Hrec : forall idx, (idx < 9)%nat -> bd !!! idx = 0 ->
  exists r, rec (- side) (<[idx := mark side]> bd) = Some r /\ -1 <= r <= 1.

Lemma NegamaxRef_loop_spec cells best :
  (forall i, In i cells -> (i < 9)%nat) ->
  exists v,
    NegamaxRef_loop rec side cells best bd = Some v /\
    best <= v /\
    (forall idx r, In idx cells -> bd !!! idx = 0 ->
       rec (- side) (<[idx := mark side]> bd) = Some r -> - r <= v) /\
    (v = best \/
     exists idx, In idx cells /\ bd !!! idx = 0 /\
       rec (- side) (<[idx := mark side]> bd) = Some (- v)).
Proof.
  revert best. induction cells as [|idx rest IH]; intros best Hcells.
  - exists best. simpl. split; [reflexivity|]. split; [lia|].
    split; [intros ? ? []|by left].
  - assert (idx < 9)%nat as Hidx by (apply Hcells; by left).
    assert (forall i, In i rest -> (i < 9)%nat) as Hrest
      by (intros i Hi; apply Hcells; by right).
    simpl. destruct (bd !!! idx =? 0) eqn:E0.
    + apply Z.eqb_eq in E0.
      destruct (Hrec idx Hidx E0) as (r & Hr & Hrange). rewrite Hr.
      destruct (IH (Z.max best (- r)) Hrest) as (v & Hv & Hvr & HA & HB).
      exists v. split; [assumption|]. split; [lia|]. split.
      * intros i r' [<-|Hin] Hi Hr'.
        -- rewrite Hr in Hr'. inversion Hr'; subst. lia.
        -- by apply (HA i r').
      * destruct HB as [HB | (i & Hin & Hi & Hri)].
        -- destruct (Z.max_spec best (- r)) as [[_ Hm]|[_ Hm]].
           ++ right. exists idx. split; [by left|]. split; [assumption|].
              rewrite Hr. f_equal. lia.
           ++ left. lia.
        -- right. exists i. split; [by right|]. by split.
    + destruct (IH best Hrest) as (v & Hv & Hvr & HA & HB).
      exists v. split; [assumption|]. split; [lia|]. split.
      * intros i r' [<-|Hin] Hi Hr'; [lia|]. by apply (HA i r').
      * destruct HB as [HB | (i & Hin & Hi & Hri)]; [by left|].
        right. exists i. split; [by right|]. by split.
Qed.
End NegamaxRefLoop.

(** The code's search and the exhaustive one agree on every position. *)
Lemma Negamax_agrees_with_ref fuel : forall side st,
  length (board st) = 9%nat -> (count_empty (board st) < fuel)%nat ->
  exists v, Negamax fuel side st = Some (v, st) /\
            NegamaxRef fuel side (board st) = Some v /\ -1 <= v <= 1.
Proof.
  induction fuel as [|fuel IH]; intros side st Hlen Hfuel; [lia|].
  destruct (Negamax_frame_total (S fuel) side st Hlen Hfuel) as (v & Hv & Hvr).
  exists v. split; [assumption|]. split; [|assumption].
  rewrite Negamax_unfold in Hv. rewrite NegamaxRef_unfold.
  destruct (negb (CheckWinnerSigned (board st) =? 0)); [congruence|].
  destruct (BoardFull (board st)) eqn:Efull; [congruence|].
  assert (forall idx, (idx < 9)%nat -> board st !!! idx = 0 ->
    exists r, Negamax fuel (- side) (set_cell st idx (mark side))
                = Some (r, set_cell st idx (mark side)) /\
              NegamaxRef fuel (- side) (<[idx := mark side]> (board st)) = Some r /\
              -1 <= r <= 1) as Hchild.
  { intros idx Hidx H0. rewrite <- set_cell_board. apply IH.
    - rewrite set_cell_board, length_insert. assumption.
    - pose proof (child_count_empty st idx (mark side) Hlen Hidx H0
                    (mark_nonzero side)). lia. }
  destruct (Negamax_loop_spec (Negamax fuel) side st Hlen) with (order := ORDER)
    (best := INT_MIN) as (v1 & Hv1 & Hv1r & HA & HB).
  { intros idx Hidx H0. destruct (Hchild idx Hidx H0) as (r & Hr & _ & Hrr). eauto. }
  { intros i Hi. by apply ORDER_complete. }
  { unfold INT_MIN. lia. }
  rewrite Hv1 in Hv. inversion Hv; subst v1. clear Hv.
  destruct (NegamaxRef_loop_spec (NegamaxRef fuel) side (board st)) with
    (cells := seq 0 9) (best := INT_MIN) as (v2 & Hv2 & Hv2r & HA' & HB').
  { intros idx Hidx H0. destruct (Hchild idx Hidx H0) as (r & _ & Hr & Hrr). eauto. }
  { intros i Hi. apply in_seq in Hi. lia. }
  rewrite Hv2. f_equal. apply Z.le_antisymm.
  - destruct HB' as [-> | (idx & Hin & H0 & Hr2)]; [lia|].
    apply in_seq in Hin. assert (idx < 9)%nat as Hidx by lia.
    destruct (Hchild idx Hidx H0) as (r & Hr & Hr' & _).
    rewrite Hr2 in Hr'. inversion Hr'; subst r.
    pose proof (HA idx _ _ (proj1 (ORDER_complete idx) Hidx) H0 Hr). lia.
  - destruct HB as [-> | (idx & Hin & H0 & Hr1)]; [lia|].
    apply ORDER_complete in Hin.
    destruct (Hchild idx Hin H0) as (r & Hr & Hr' & _).
    rewrite Hr1 in Hr. inversion Hr; subst r.
    assert (In idx (seq 0 9)) as Hseq by (apply in_seq; lia).
    pose proof (HA' idx _ Hseq H0 Hr'). lia.
Qed.

(** ** The search computes the forced outcome *)

Lemma line_owned_insert_other (bd : list Z) i m p l :
  In l WINS -> (i < length bd)%nat -> p <> m -> bd !!! i = 0 ->
  line_owned (<[i := m]> bd) p l = true -> line_owned bd p l = true.
Proof.
  destruct l as [[a b] c]. intros _ Hi Hpm H0. simpl. intros H.
  apply andb_true_iff in H as [H Hc]. apply andb_true_iff in H as [Ha Hb].
  apply Z.eqb_eq in Ha, Hb, Hc.
  assert (forall j, <[i := m]> bd !!! j = p -> bd !!! j = p) as Hj.
  { intros j Hjp. destruct (decide (i = j)) as [<-|Hne].
    - rewrite list_lookup_total_insert_eq in Hjp by assumption. congruence.
    - by rewrite list_lookup_total_insert_ne in Hjp. }
  rewrite (Hj a Ha), (Hj b Hb), (Hj c Hc), Z.eqb_refl. reflexivity.
Qed.

(** Placing [m] on an empty cell completes no triplet of another mark. *)
Lemma has_line_insert_other (bd : list Z) i m p :
  (i < length bd)%nat -> p <> m -> bd !!! i = 0 ->
  has_line bd p = false -> has_line (<[i := m]> bd) p = false.
Proof.
  intros Hi Hpm H0 Hno. destruct (has_line (<[i := m]> bd) p) eqn:E; [|reflexivity].
  unfold has_line in *. apply existsb_exists in E as (l & Hin & Hl).
  assert (existsb (line_owned bd p) WINS = true) as Hyes.
  { apply existsb_exists. exists l. split; [assumption|].
    by apply (line_owned_insert_other bd i m p l). }
  congruence.
Qed.

Lemma no_winner_no_lines bd :
  CheckWinnerSigned bd = 0 -> wf_board bd = true ->
  has_line bd 1 = false /\ has_line bd 2 = false.
Proof.
  intros Hs Hwf.
  assert (CheckWinnerRaw bd = 0) as Hraw.
  { destruct (CheckWinnerSigned_cases bd) as [[? ?]|[[? ?]|(_ & H1 & H2)]]; try lia.
    destruct (CheckWinnerRaw_wf bd Hwf) as [?|[?|?]]; lia. }
  split.
  - destruct (has_line bd 1) eqn:E; [|reflexivity].
    apply has_line_CheckWinnerRaw in E; lia.
  - destruct (has_line bd 2) eqn:E; [|reflexivity].
    apply has_line_CheckWinnerRaw in E; lia.
Qed.

Lemma winner_has_line bd :
  CheckWinnerSigned bd <> 0 ->
  (CheckWinnerSigned bd = 1 /\ has_line bd 1 = true) \/
  (CheckWinnerSigned bd = -1 /\ has_line bd 2 = true).
Proof.
  intros Hs.
  destruct (CheckWinnerSigned_cases bd) as [[? Hr]|[[? Hr]|(? & _ & _)]]; [left|right|lia];
    (split; [assumption|]); rewrite <- Hr; apply CheckWinnerRaw_has_line; lia.
Qed.

Lemma mark_opp_ne side : side = 1 \/ side = -1 -> mark (- side) <> mark side.
Proof. intros [->| ->]; unfold mark; simpl; lia. Qed.

Lemma mark_cases side : side = 1 \/ side = -1 ->
  (side = 1 /\ mark side = 1 /\ mark (- side) = 2) \/
  (side = -1 /\ mark side = 2 /\ mark (- side) = 1).
Proof. intros [->| ->]; unfold mark; simpl; [left|right]; lia. Qed.

(** On a well-formed position where the player to move has no completed
    triplet, [Negamax] returns +1 exactly on won positions and -1 exactly
    on lost ones. *)
Lemma Negamax_game_value fuel : forall side st,
  side = 1 \/ side = -1 ->
  wf_board (board st) = true ->
  has_line (board st) (mark side) = false ->
  (count_empty (board st) < fuel)%nat ->
  exists v, Negamax fuel side st = Some (v, st) /\ -1 <= v <= 1 /\
            (v = 1 <-> Won side (board st)) /\
            (v = -1 <-> Lost side (board st)).
Proof.
  induction fuel as [|fuel IH]; intros side st Hside Hwf Hmine Hfuel; [lia|].
  pose proof (wf_board_length _ Hwf) as Hlen.
  destruct (Negamax_frame_total (S fuel) side st Hlen Hfuel) as (v & Hv & Hvr).
  exists v. split; [assumption|]. split; [assumption|].
  rewrite Negamax_unfold in Hv.
  destruct (CheckWinnerSigned (board st) =? 0) eqn:Ew; cbn [negb] in Hv.
  - apply Z.eqb_eq in Ew.
    destruct (no_winner_no_lines _ Ew Hwf) as [Hno1 Hno2].
    destruct (BoardFull (board st)) eqn:Efull.
    + (* draw: full board, no triplet *)
      inversion Hv; subst v. clear Hv.
      pose proof (proj1 (BoardFull_spec _) Efull) as Hfull. rewrite Hlen in Hfull.
      split; split; try lia.
      * intros HW. inversion HW; subst. exfalso. by apply (Hfull i).
      * intros HL. inversion HL as [? ? Hl | ? ? _ _ (i & Hi & Hi0) _]; subst.
        -- destruct (mark_cases side Hside) as [(_ & _ & E)|(_ & _ & E)];
             rewrite E in Hl; congruence.
        -- exfalso. by apply (Hfull i).
    + (* the game goes on *)
      assert (forall idx, (idx < 9)%nat -> board st !!! idx = 0 ->
        exists r, Negamax fuel (- side) (set_cell st idx (mark side))
                    = Some (r, set_cell st idx (mark side)) /\ -1 <= r <= 1 /\
                  (r = 1 <-> Won (- side) (<[idx := mark side]> (board st))) /\
                  (r = -1 <-> Lost (- side) (<[idx := mark side]> (board st))))
        as Hchild.
      { intros idx Hidx H0. rewrite <- set_cell_board. apply IH.
        - lia.
        - rewrite set_cell_board. apply wf_board_insert; [assumption | apply mark_valid].
        - rewrite set_cell_board.
          apply has_line_insert_other;
            [lia | by apply mark_opp_ne | assumption | ].
          destruct (mark_cases side Hside) as [(_ & _ & E)|(_ & _ & E)];
            by rewrite E.
        - pose proof (child_count_empty st idx (mark side) Hlen Hidx H0
                        (mark_nonzero side)). lia. }
      destruct (Negamax_loop_spec (Negamax fuel) side st Hlen) with (order := ORDER)
        (best := INT_MIN) as (v1 & Hv1 & Hv1r & HA & HB).
      { intros idx Hidx H0. destruct (Hchild idx Hidx H0) as (r & Hr & Hrr & _). eauto. }
      { intros i Hi. by apply ORDER_complete. }
      { unfold INT_MIN. lia. }
      rewrite Hv1 in Hv. inversion Hv; subst v1. clear Hv.
      assert (v <> INT_MIN) as Hnotmin by (unfold INT_MIN; lia).
      destruct HB as [HB | (best_idx & Hbin & Hb0 & Hbr)]; [contradiction|].
      apply ORDER_complete in Hbin.
      destruct (Hchild best_idx Hbin Hb0) as (rb & Hrb & _ & HbW & HbL).
      rewrite Hbr in Hrb. inversion Hrb; subst rb. clear Hrb.
      split; split.
      * intros ->. apply (Won_move side (board st) best_idx); try assumption.
        apply HbL. reflexivity.
      * intros HW. inversion HW as [? ? i _ _ Hi Hi0 HLi]; subst.
        destruct (Hchild i Hi Hi0) as (r & Hr & Hrr & _ & HrL).
        apply HrL in HLi. subst r.
        pose proof (HA i _ _ (proj1 (ORDER_complete i) Hi) Hi0 Hr). lia.
      * intros ->. apply Lost_all; try assumption.
        -- exists best_idx. by split.
        -- intros i Hi Hi0.
           destruct (Hchild i Hi Hi0) as (r & Hr & Hrr & HrW & _).
           apply HrW.
           pose proof (HA i _ _ (proj1 (ORDER_complete i) Hi) Hi0 Hr). lia.
      * intros HL. inversion HL as [? ? Hl | ? ? _ _ _ Hall]; subst.
        -- destruct (mark_cases side Hside) as [(_ & _ & E)|(_ & _ & E)];
             rewrite E in Hl; congruence.
        -- specialize (Hall best_idx Hbin Hb0). apply HbW in Hall. lia.
  - (* a triplet is complete: it is the opponent's *)
    apply Z.eqb_neq in Ew.
    assert (CheckWinnerSigned (board st) = - side /\
            has_line (board st) (mark (- side)) = true) as [Hopp Hline].
    { destruct (winner_has_line _ Ew) as [[Hs Hl]|[Hs Hl]];
        destruct (mark_cases side Hside) as [(-> & Em & Eo)|(-> & Em & Eo)];
        rewrite ?Em, ?Eo in *; try congruence; split; (lia || assumption). }
    assert (v = -1) as ->.
    { destruct (CheckWinnerSigned (board st) =? side) eqn:E;
        inversion Hv; [|reflexivity]. lia. }
    split; split; try lia.
    + intros HW. inversion HW as [? ? i Hn1 Hn2 _ _ _]; subst.
      destruct (mark_cases side Hside) as [(_ & _ & E)|(_ & _ & E)];
        rewrite E in Hline; congruence.
    + intros _. by apply Lost_line.
Qed.

(** ** The move the AI commits *)

Lemma AIMove_loop_mono fuel fuel' : (fuel <= fuel')%nat ->
  forall order bestVal bestMove st x,
    AIMove_loop fuel order bestVal bestMove st = Some x ->
    AIMove_loop fuel' order bestVal bestMove st = Some x.
Proof.
  intros Hle. induction order as [|idx rest IH]; intros bestVal bestMove st x;
    simpl; [auto|].
  destruct (negb (board st !!! idx =? 0)); [apply IH|].
  destruct (Negamax fuel 1 _) as [[r st2]|] eqn:Er; [|discriminate].
  rewrite (Negamax_fuel_mono _ _ _ _ _ Hle Er).
  destruct (- r >? bestVal); [|apply IH].
  destruct (- r =? 1); [auto | apply IH].
Qed.

Lemma AIMove_Negamax_mono fuel fuel' st x : (fuel <= fuel')%nat ->
  AIMove_Negamax fuel st = Some x -> AIMove_Negamax fuel' st = Some x.
Proof.
  intros Hle. unfold AIMove_Negamax. destruct (gameOver st); [auto|].
  destruct (AIMove_loop fuel ORDER INT_MIN (-1) st) as [[[bv bm] st1]|] eqn:E;
    [|discriminate].
  by rewrite (AIMove_loop_mono _ _ Hle _ _ _ _ _ E).
Qed.

Lemma AIMove_commit_board j st :
  board (AIMove_commit (Z.of_nat j) st) = <[j := 2]> (board st).
Proof.
  assert ((Z.of_nat j =? -1) = false) as H by (apply Z.eqb_neq; lia).
  unfold AIMove_commit. cbv zeta. rewrite H. cbv iota. rewrite H. cbn [negb].
  rewrite Nat2Z.id.
  destruct (negb (gameOver (update_outcome (set_cell st j 2)))); reflexivity.
Qed.

(** When the game is not over and a cell is empty, the selection loop
    scores at least one candidate: it ends with [bestMove] an empty cell
    whose score [bestVal] is maximal, and that cell is where O is put. *)
Lemma AIMove_Negamax_spec fuel st :
  length (board st) = 9%nat -> gameOver st = false ->
  (exists i, (i < 9)%nat /\ board st !!! i = 0) ->
  (count_empty (board st) <= fuel)%nat ->
  exists bv j,
    (j < 9)%nat /\ board st !!! j = 0 /\
    AIMove_loop fuel ORDER INT_MIN (-1) st = Some (bv, Z.of_nat j, st) /\
    Negamax fuel 1 (set_cell st j 2) = Some (- bv, set_cell st j 2) /\
    (forall i r st', (i < 9)%nat -> board st !!! i = 0 ->
       Negamax fuel 1 (set_cell st i 2) = Some (r, st') -> - r <= bv) /\
    AIMove_Negamax fuel st = Some (AIMove_commit (Z.of_nat j) st).
Proof.
  intros Hlen Hgo (i0 & Hi0 & Hi00) Hfuel.
  assert (forall idx, (idx < 9)%nat -> board st !!! idx = 0 ->
    exists r, Negamax fuel 1 (set_cell st idx 2) = Some (r, set_cell st idx 2)
              /\ -1 <= r <= 1) as Hrec.
  { intros idx Hidx H0. apply Negamax_frame_total.
    - rewrite set_cell_board, length_insert. assumption.
    - pose proof (child_count_empty st idx 2 Hlen Hidx H0 ltac:(lia)). lia. }
  destruct (AIMove_loop_spec fuel st Hlen Hrec ORDER INT_MIN (-1))
    as (bv & bm & Hrun & Hbr & HA & HB).
  { intros i Hi. by apply ORDER_complete. }
  { unfold INT_MIN. lia. }
  destruct HB as [[Hbv _] | (_ & j & Hin & -> & Hj0 & Hj)].
  - exfalso. destruct (Hrec i0 Hi0 Hi00) as (r & Hr & Hrr).
    pose proof (HA i0 r _ (proj1 (ORDER_complete i0) Hi0) Hi00 Hr).
    unfold INT_MIN in Hbv. lia.
  - apply ORDER_complete in Hin. exists bv, j.
    split; [assumption|]. split; [assumption|]. split; [assumption|].
    split; [assumption|]. split.
    + intros i r st' Hi H0 Hr. apply (HA i r st'); try assumption.
      by apply ORDER_complete.
    + unfold AIMove_Negamax. by rewrite Hgo, Hrun.
Qed.

(** ** Legal play *)

Lemma game_over_false bd :
  game_over bd = false -> CheckWinnerRaw bd = 0 /\ BoardFull bd = false.
Proof.
  unfold game_over. intros H. apply orb_false_iff in H as [H1 H2].
  split; [|assumption]. apply negb_false_iff in H1. lia.
Qed.

Lemma no_raw_winner_no_line bd p : p <> 0 -> CheckWinnerRaw bd = 0 -> has_line bd p = false.
Proof.
  intros Hp Hraw. destruct (has_line bd p) eqn:E; [|reflexivity].
  apply has_line_CheckWinnerRaw in E; [contradiction | assumption].
Qed.

Lemma other_cases p : p = 1 \/ p = 2 ->
  (p = 1 /\ other p = 2) \/ (p = 2 /\ other p = 1).
Proof. intros [->| ->]; [left|right]; split; reflexivity. Qed.

(** In legal play the board is well formed and the player whose turn
    it is has no completed triplet. *)
Lemma played_inv bd p :
  played bd p -> wf_board bd = true /\ (p = 1 \/ p = 2) /\ has_line bd p = false.
Proof.
  induction 1 as [|bd p idx Hplayed (Hwf & Hp & Hmine) Hgo Hidx H0].
  - split; [reflexivity|]. split; [by left | reflexivity].
  - apply game_over_false in Hgo as [Hraw _].
    pose proof (wf_board_length _ Hwf) as Hlen.
    destruct (other_cases p Hp) as [[-> ->]|[-> ->]].
    + split; [by apply wf_board_insert|]. split; [by right|].
      apply has_line_insert_other; [lia | lia | assumption |].
      by apply no_raw_winner_no_line.
    + split; [by apply wf_board_insert|]. split; [by left|].
      apply has_line_insert_other; [lia | lia | assumption |].
      by apply no_raw_winner_no_line.
Qed.

(** Every state the program reaches holds a board of legal play, its
    game-over flag is the one the board determines, and while the game
    goes on [currentPlayer] is the player to move. *)
Lemma reachable_played st :
  reachable st ->
  exists p, played (board st) p /\
            gameOver st = game_over (board st) /\
            (gameOver st = false -> currentPlayer st = p).
Proof.
  induction 1 as [|st st' Hreach (p & Hplayed & Hflag & Hturn) Hstep].
  - exists 1. split; [apply played_start|]. split; reflexivity.
  - destruct Hstep as [st | st | st idx fuel st' Hidx Hen Hclick].
    + exists 1. split; [apply played_start|]. split; reflexivity.
    + exists p. split; [assumption|]. split; assumption.
    + assert (gameOver st = false /\ board st !!! idx = 0 /\
              (aiEnabled st = true -> currentPlayer st = 1)) as (Hgo & H0 & Hai).
      { unfold disabled in Hen. destruct (aiEnabled st).
        - apply orb_false_iff in Hen as [Hen H3]. apply orb_false_iff in Hen as [H1 H2].
          apply negb_false_iff in H2, H3.
          split; [assumption|]. split; [lia|]. intros _. lia.
        - apply orb_false_iff in Hen as [H1 H2]. apply negb_false_iff in H2.
          split; [assumption|]. split; [lia | discriminate]. }
      specialize (Hturn Hgo). rewrite Hgo in Hflag. symmetry in Hflag.
      pose proof (played_move _ _ idx Hplayed Hflag Hidx H0) as Hnext.
      destruct (played_inv _ _ Hplayed) as (Hwf & Hp & _).
      pose proof (wf_board_length _ Hwf) as Hlen.
      unfold Click in Hclick. cbv zeta in Hclick.
      assert (board (human_place idx st) = <[idx := p]> (board st)) as Hbd
        by (unfold human_place; simpl; by rewrite Hturn).
      assert (gameOver (human_place idx st) = game_over (board (human_place idx st)))
        as Hflag1 by reflexivity.
      destruct (gameOver (human_place idx st)) eqn:Hgo1; cbn [negb] in Hclick.
      * inversion Hclick; subst st'. exists (other p). rewrite Hbd.
        split; [assumption|]. split; [rewrite <- Hbd; reflexivity | congruence].
      * assert (aiEnabled (human_place idx st) = aiEnabled st) as Hai1 by reflexivity.
        rewrite Hai1 in Hclick. destruct (aiEnabled st) eqn:Eai.
        -- (* the AI replies as O *)
           specialize (Hai eq_refl). assert (p = 1) as -> by congruence.
           set (st2 := set_currentPlayer (human_place idx st) 2) in *.
           assert (board st2 = <[idx := 1]> (board st)) as Hbd2 by exact Hbd.
           assert (length (board st2) = 9%nat) as Hlen2
             by (rewrite Hbd2, length_insert; assumption).
           assert (game_over (board st2) = false) as Hgo2
             by (rewrite Hbd2, <- Hbd; congruence).
           destruct (game_over_false _ Hgo2) as [_ Hfull2].
           destruct (not_full_empty_cell _ Hfull2) as (i & Hi & Hi0).
           rewrite Hlen2 in Hi.
           set (big := (fuel + count_empty (board st2))%nat).
           destruct (AIMove_Negamax_spec big st2 Hlen2 Hgo1
                       (ex_intro _ i (conj Hi Hi0)) ltac:(lia))
             as (bv & j & Hj & Hj0 & _ & _ & _ & Hrun).
           pose proof (AIMove_Negamax_mono fuel big st2 st' ltac:(lia) Hclick) as Hbig.
           rewrite Hrun in Hbig. inversion Hbig; subst st'. clear Hbig.
           pose proof (AIMove_commit_board j st2) as Hbd'.
           exists 1. rewrite Hbd'. split.
           ++ apply (played_move (board st2) 2 j); try assumption.
              rewrite Hbd2. exact Hnext.
           ++ rewrite <- Hbd'. unfold AIMove_commit.
              assert ((Z.of_nat j =? -1) = false) as Hne by (apply Z.eqb_neq; lia).
              cbv zeta. rewrite Hne. cbv iota. rewrite Hne. cbn [negb].
              destruct (gameOver (update_outcome (set_cell st2 (Z.to_nat (Z.of_nat j)) 2)))
                eqn:Hgo3; cbn [negb].
              ** split; [reflexivity | congruence].
              ** split; reflexivity.
        -- (* two players: the turn is toggled *)
           inversion Hclick; subst st'. exists (other p). simpl. rewrite Hturn.
           split; [assumption|]. split; reflexivity.
Qed.

(** A completed triplet survives a mark placed on an empty cell. *)
Lemma has_line_insert_keep (bd : list Z) i m p :
  p <> 0 -> bd !!! i = 0 -> has_line bd p = true -> has_line (<[i := m]> bd) p = true.
Proof.
  intros Hp H0 H. unfold has_line in *. apply existsb_exists in H as (l & Hin & Hl).
  apply existsb_exists. exists l. split; [assumption|].
  destruct l as [[a b] c]. simpl in *.
  apply andb_true_iff in Hl as [Hl Hc]. apply andb_true_iff in Hl as [Ha Hb].
  apply Z.eqb_eq in Ha, Hb, Hc.
  assert (forall j, bd !!! j = p -> <[i := m]> bd !!! j = p) as Hj.
  { intros j Hjp. rewrite list_lookup_total_insert_ne; [assumption|]. congruence. }
  rewrite (Hj a Ha), (Hj b Hb), (Hj c Hc), Z.eqb_refl. reflexivity.
Qed.

(** * Properties stated by the specification *)

(** ** C1

    On a board of legal alternating play with the game-over flag clear,
    if some empty cell leaves X without a forced win once O takes it,
    then [AIMove_Negamax] returns, it puts O on an empty cell, and X has
    no forced win on the resulting board: the AI never steps into a
    forced loss when it can avoid one. *)
Theorem AIMove_avoids_forced_loss fuel st p :
  played (board st) p ->
  gameOver st = false ->
  (exists i, (i < 9)%nat /\ board st !!! i = 0 /\
             ~ Won 1 (<[i := 2]> (board st))) ->
  (count_empty (board st) <= fuel)%nat ->
  exists j st',
    AIMove_Negamax fuel st = Some st' /\
    (j < 9)%nat /\ board st !!! j = 0 /\
    board st' = <[j := 2]> (board st) /\
    ~ Won 1 (board st').
Proof.
  intros Hplayed Hgo (i & Hi & Hi0 & Hsafe) Hfuel.
  destruct (played_inv _ _ Hplayed) as (Hwf & _ & _).
  pose proof (wf_board_length _ Hwf) as Hlen.
  destruct (AIMove_Negamax_spec fuel st Hlen Hgo (ex_intro _ i (conj Hi Hi0)) Hfuel)
    as (bv & j & Hj & Hj0 & _ & Hrj & Hmax & Hrun).
  exists j, (AIMove_commit (Z.of_nat j) st).
  split; [assumption|]. split; [assumption|]. split; [assumption|].
  split; [apply AIMove_commit_board|]. rewrite AIMove_commit_board.
  destruct (Z.eq_dec (CheckWinnerRaw (board st)) 0) as [Hraw|Hraw].
  - (* the game goes on: the search values decide *)
    assert (has_line (board st) 1 = false) as HnoX by (by apply no_raw_winner_no_line).
    assert (forall k, (k < 9)%nat -> board st !!! k = 0 ->
      exists v, Negamax fuel 1 (set_cell st k 2) = Some (v, set_cell st k 2) /\
                -1 <= v <= 1 /\ (v = 1 <-> Won 1 (<[k := 2]> (board st)))) as Hval.
    { intros k Hk Hk0.
      destruct (Negamax_game_value fuel 1 (set_cell st k 2)) as (v & Hv & Hvr & HvW & _).
      - by left.
      - rewrite set_cell_board. by apply wf_board_insert.
      - rewrite set_cell_board. change (mark 1) with 1.
        apply has_line_insert_other; [lia | lia | assumption..].
      - pose proof (child_count_empty st k 2 Hlen Hk Hk0 ltac:(lia)). lia.
      - exists v. rewrite set_cell_board in HvW.
        split; [assumption|]. split; assumption. }
    destruct (Hval i Hi Hi0) as (vi & Hvi & Hvir & HviW).
    pose proof (Hmax i vi _ Hi Hi0 Hvi) as Hle.
    assert (vi <> 1) as Hvi1 by (intros E; apply Hsafe, HviW, E).
    destruct (Hval j Hj Hj0) as (vj & Hvj & Hvjr & HvjW).
    rewrite Hrj in Hvj. inversion Hvj; subst vj.
    intros HW. apply HvjW in HW. lia.
  - (* a triplet is already complete: it stays, and no position that
       holds a triplet is won by a move *)
    pose proof (CheckWinnerRaw_has_line _ Hraw) as Hl.
    intros HW. inversion HW as [s b k Hno1 Hno2 Hk Hk0 HL]; subst.
    destruct (CheckWinnerRaw_wf _ Hwf) as [E|[E|E]]; [contradiction| |];
      rewrite E in Hl.
    + rewrite (has_line_insert_keep (board st) j 2 1) in Hno1;
        [discriminate | lia | assumption..].
    + rewrite (has_line_insert_keep (board st) j 2 2) in Hno2;
        [discriminate | lia | assumption..].
Qed.

Lemma played_example : played (board ex_o_to_move) 2.
Proof.
  pose proof played_start as H0.
  pose proof (played_move _ _ 0 H0 eq_refl ltac:(lia) eq_refl) as H1.
  pose proof (played_move _ _ 3 H1 eq_refl ltac:(lia) eq_refl) as H2.
  pose proof (played_move _ _ 1 H2 eq_refl ltac:(lia) eq_refl) as H3.
  pose proof (played_move _ _ 4 H3 eq_refl ltac:(lia) eq_refl) as H4.
  exact (played_move _ _ 6 H4 eq_refl ltac:(lia) eq_refl).
Qed.

Lemma AIMove_avoids_forced_loss_witness :
  exists j st',
    AIMove_Negamax 4 ex_o_to_move = Some st' /\
    (j < 9)%nat /\ board ex_o_to_move !!! j = 0 /\
    board st' = <[j := 2]> (board ex_o_to_move) /\
    ~ Won 1 (board st').
Proof.
  apply (AIMove_avoids_forced_loss 4 ex_o_to_move 2).
  - exact played_example.
  - reflexivity.
  - exists 5%nat. split; [lia|]. split; [reflexivity|].
    intros HW. inversion HW as [s b k Hno1 Hno2 Hk Hk0 HL]. discriminate Hno2.
  - simpl. lia.
Defined.

(** ** C2

    The claim as written fails.  On [ex_double_threat], a board of legal
    play, X and O each have two in a row with the third cell free, so
    whoever moves wins at once:
    [Negamax] yields +1 for side +1 and +1 again for side -1, so no [v]
    is the value for +1 while [- v] is the value for -1. *)
Lemma Negamax_not_antisymmetric :
  played (board ex_double_threat) 1 /\
  Negamax 10 1 ex_double_threat = Some (1, ex_double_threat) /\
  Negamax 10 (-1) ex_double_threat = Some (1, ex_double_threat) /\
  ~ (exists v, Negamax 10 1 ex_double_threat = Some (v, ex_double_threat) /\
               Negamax 10 (-1) ex_double_threat = Some (- v, ex_double_threat)).
Proof.
  assert (Negamax 10 1 ex_double_threat = Some (1, ex_double_threat)) as H1
    by (vm_compute; reflexivity).
  assert (Negamax 10 (-1) ex_double_threat = Some (1, ex_double_threat)) as H2
    by (vm_compute; reflexivity).
  split; [|split; [assumption|]; split; [assumption|]].
  - pose proof played_start as P0.
    pose proof (played_move _ _ 0 P0 eq_refl ltac:(lia) eq_refl) as P1.
    pose proof (played_move _ _ 3 P1 eq_refl ltac:(lia) eq_refl) as P2.
    pose proof (played_move _ _ 1 P2 eq_refl ltac:(lia) eq_refl) as P3.
    exact (played_move _ _ 4 P3 eq_refl ltac:(lia) eq_refl).
  - intros (v & Hv1 & Hv2). rewrite H1 in Hv1. rewrite H2 in Hv2.
    inversion Hv1. inversion Hv2. lia.
Qed.

(** C2, amended.  On a board where the game is over (a triplet is
    complete, or no cell is empty) the evaluation is antisymmetric in the
    side: [Negamax(+1)] returns [v] and [Negamax(-1)] returns [- v]. *)
Theorem Negamax_antisymmetric_terminal fuel st :
  CheckWinnerSigned (board st) <> 0 \/ BoardFull (board st) = true ->
  exists v, Negamax (S fuel) 1 st = Some (v, st) /\
            Negamax (S fuel) (-1) st = Some (- v, st).
Proof.
  intros Hterm.
  destruct (CheckWinnerSigned_cases (board st)) as [[E _]|[[E _]|[E _]]].
  - exists 1. rewrite !Negamax_winner, E by lia. split; reflexivity.
  - exists (-1). rewrite !Negamax_winner, E by lia. split; reflexivity.
  - destruct Hterm as [H|H]; [congruence|].
    exists 0. rewrite !Negamax_full by assumption. split; reflexivity.
Qed.

Lemma Negamax_antisymmetric_terminal_witness :
  exists v, Negamax 1 1 ex_x_won = Some (v, ex_x_won) /\
            Negamax 1 (-1) ex_x_won = Some (- v, ex_x_won).
Proof.
  apply (Negamax_antisymmetric_terminal 0 ex_x_won).
  left. vm_compute. discriminate.
Defined.

(** ** C3

    On a well-formed board, for any side: if X has a completed triplet
    and O has none, the signed winner is +1 and [Negamax] returns +1 to
    side +1 and -1 to any other side; if O has one and X has none, the
    signed winner is -1 and [Negamax] returns +1 to side -1 and -1 to
    any other side.  In general the signed winner is that of the owner of
    the first matching triplet of [WINS] (+1 for mark 1, -1 for mark 2),
    and [Negamax] returns +1 when it equals [side] and -1 otherwise.  If
    no triplet is complete and no cell is empty it returns 0.  In every
    case the state is returned as it was and one level of recursion
    suffices ([fuel] may be 0, and every explored move costs one more
    level), so no move is explored. *)
Theorem Negamax_terminal fuel side st :
  wf_board (board st) = true ->
  (has_line (board st) 1 = true -> has_line (board st) 2 = false ->
     CheckWinnerSigned (board st) = 1 /\
     Negamax (S fuel) side st = Some ((if side =? 1 then 1 else -1), st)) /\
  (has_line (board st) 2 = true -> has_line (board st) 1 = false ->
     CheckWinnerSigned (board st) = -1 /\
     Negamax (S fuel) side st = Some ((if side =? -1 then 1 else -1), st)) /\
  (forall pre l0 l1 l2 post,
     WINS = pre ++ (l0, l1, l2) :: post ->
     (forall l, In l pre -> line_matches (board st) l = false) ->
     line_matches (board st) (l0, l1, l2) = true ->
     (board st !!! l0 = 1 \/ board st !!! l0 = 2) /\
     CheckWinnerSigned (board st) = (if board st !!! l0 =? 1 then 1 else -1) /\
     Negamax (S fuel) side st =
       Some ((if (if board st !!! l0 =? 1 then 1 else -1) =? side then 1 else -1), st)) /\
  (has_line (board st) 1 = true \/ has_line (board st) 2 = true ->
     CheckWinnerSigned (board st) <> 0 /\
     Negamax (S fuel) side st =
       Some ((if CheckWinnerSigned (board st) =? side then 1 else -1), st)) /\
  (has_line (board st) 1 = false -> has_line (board st) 2 = false ->
   (forall i, (i < 9)%nat -> board st !!! i <> 0) ->
     Negamax (S fuel) side st = Some (0, st)).
Proof.
  intros Hwf. pose proof (wf_board_length _ Hwf) as Hlen.
  assert (has_line (board st) 1 = true -> has_line (board st) 2 = false ->
          CheckWinnerRaw (board st) = 1) as HownerX.
  { intros Hyes Hno.
    assert (CheckWinnerRaw (board st) <> 0) as Hraw
      by (apply (has_line_CheckWinnerRaw (board st) 1); [lia | assumption]).
    pose proof (CheckWinnerRaw_has_line _ Hraw) as Hl.
    destruct (CheckWinnerRaw_wf _ Hwf) as [E|[E|E]]; [contradiction | assumption |].
    rewrite E in Hl. congruence. }
  assert (has_line (board st) 2 = true -> has_line (board st) 1 = false ->
          CheckWinnerRaw (board st) = 2) as HownerO.
  { intros Hyes Hno.
    assert (CheckWinnerRaw (board st) <> 0) as Hraw
      by (apply (has_line_CheckWinnerRaw (board st) 2); [lia | assumption]).
    pose proof (CheckWinnerRaw_has_line _ Hraw) as Hl.
    destruct (CheckWinnerRaw_wf _ Hwf) as [E|[E|E]]; [contradiction | | assumption].
    rewrite E in Hl. congruence. }
  split; [|split; [|split; [|split]]].
  - intros H1 H2.
    assert (CheckWinnerSigned (board st) = 1) as Hs
      by (unfold CheckWinnerSigned; rewrite HownerX by assumption; reflexivity).
    split; [exact Hs|]. rewrite Negamax_winner by lia. rewrite Hs.
    by rewrite (Z.eqb_sym 1 side).
  - intros H2 H1.
    assert (CheckWinnerSigned (board st) = -1) as Hs
      by (unfold CheckWinnerSigned; rewrite HownerO by assumption; reflexivity).
    split; [exact Hs|]. rewrite Negamax_winner by lia. rewrite Hs.
    by rewrite (Z.eqb_sym (-1) side).
  - intros pre l0 l1 l2 post HW Hpre Hm.
    assert (CheckWinnerRaw (board st) = board st !!! l0) as Hraw
      by (unfold CheckWinnerRaw; rewrite HW; by apply CheckWinnerRaw_loop_first).
    assert (board st !!! l0 <> 0) as Hnz.
    { simpl in Hm. intros E. rewrite E in Hm. discriminate. }
    assert (board st !!! l0 = 1 \/ board st !!! l0 = 2) as Hown.
    { rewrite <- Hraw in *. destruct (CheckWinnerRaw_wf _ Hwf) as [E|[E|E]];
        [contradiction | by left | by right]. }
    assert (CheckWinnerSigned (board st) = (if board st !!! l0 =? 1 then 1 else -1)) as Hs.
    { unfold CheckWinnerSigned. rewrite Hraw.
      destruct Hown as [-> | ->]; reflexivity. }
    split; [exact Hown|]. split; [exact Hs|].
    rewrite Negamax_winner by (rewrite Hs; destruct (board st !!! l0 =? 1); lia).
    by rewrite Hs.
  - intros Hline.
    assert (CheckWinnerSigned (board st) <> 0) as Hs.
    { intros Hs. destruct (no_winner_no_lines _ Hs Hwf) as [H1 H2].
      destruct Hline; congruence. }
    split; [assumption | by apply Negamax_winner].
  - intros H1 H2 Hfull. apply Negamax_full.
    + unfold CheckWinnerSigned.
      by rewrite (has_line_false_CheckWinnerRaw _ Hwf H1 H2).
    + apply BoardFull_spec. by rewrite Hlen.
Qed.

Lemma Negamax_terminal_witness :
  (CheckWinnerSigned (board ex_x_won) = 1 /\
   Negamax 1 1 ex_x_won = Some ((if 1 =? 1 then 1 else -1), ex_x_won)) /\
  (CheckWinnerSigned (board ex_x_won) = 1 /\
   Negamax 1 (-1) ex_x_won = Some ((if -1 =? 1 then 1 else -1), ex_x_won)) /\
  (CheckWinnerSigned (board ex_o_won) = -1 /\
   Negamax 1 (-1) ex_o_won = Some ((if -1 =? -1 then 1 else -1), ex_o_won)) /\
  (CheckWinnerSigned (board ex_o_won) = -1 /\
   Negamax 1 1 ex_o_won = Some ((if 1 =? -1 then 1 else -1), ex_o_won)) /\
  Negamax 1 1 ex_draw = Some (0, ex_draw).
Proof.
  split; [|split; [|split; [|split]]].
  - exact (proj1 (Negamax_terminal 0 1 ex_x_won eq_refl) eq_refl eq_refl).
  - exact (proj1 (Negamax_terminal 0 (-1) ex_x_won eq_refl) eq_refl eq_refl).
  - exact (proj1 (proj2 (Negamax_terminal 0 (-1) ex_o_won eq_refl)) eq_refl eq_refl).
  - exact (proj1 (proj2 (Negamax_terminal 0 1 ex_o_won eq_refl)) eq_refl eq_refl).
  - apply (proj2 (proj2 (proj2 (proj2 (Negamax_terminal 0 1 ex_draw eq_refl)))));
      [reflexivity | reflexivity |].
    intros i Hi. do 9 (destruct i as [|i]; [discriminate|]). lia.
Defined.

(** ** C4

    For every board and side, with fuel above the number of empty cells,
    the code's search (preference order [ORDER], early exit at +1) and
    the exhaustive search of the specification (cells 0..8 in index
    order, no early exit) both return, and they return the same value. *)
Theorem Negamax_equals_exhaustive fuel side st :
  length (board st) = 9%nat -> (count_empty (board st) < fuel)%nat ->
  exists v, Negamax fuel side st = Some (v, st) /\
            NegamaxRef fuel side (board st) = Some v.
Proof.
  intros Hlen Hfuel.
  destruct (Negamax_agrees_with_ref fuel side st Hlen Hfuel) as (v & H1 & H2 & _).
  eauto.
Qed.

Lemma Negamax_equals_exhaustive_witness :
  exists v, Negamax 7 1 ex_midgame = Some (v, ex_midgame) /\
            NegamaxRef 7 1 (board ex_midgame) = Some v.
Proof.
  apply (Negamax_equals_exhaustive 7 1 ex_midgame).
  - reflexivity.
  - simpl. lia.
Defined.

(** ** C5

    On the board [1,1,0,0,2,0,0,0,2] with the game-over flag clear, the
    selection loop ends with [bestMove = 2] (score +1) and
    [AIMove_Negamax] puts O on index 2, for any fuel of at least 5. *)
Theorem AIMove_picks_index_2 k cp w ai :
  AIMove_loop (5 + k) ORDER INT_MIN (-1)
      (mkState [1; 1; 0; 0; 2; 0; 0; 0; 2] cp false w ai)
    = Some (1, 2, mkState [1; 1; 0; 0; 2; 0; 0; 0; 2] cp false w ai) /\
  AIMove_Negamax (5 + k) (mkState [1; 1; 0; 0; 2; 0; 0; 0; 2] cp false w ai)
    = Some (mkState [1; 1; 2; 0; 2; 0; 0; 0; 2] 1 false 0 ai).
Proof.
  split.
  - apply (AIMove_loop_mono 5 (5 + k)); [lia|]. vm_compute. reflexivity.
  - apply (AIMove_Negamax_mono 5 (5 + k)); [lia|]. vm_compute. reflexivity.
Qed.

(** ** C6

    On every board reached from the empty board by alternating legal
    moves, X and O do not both have a completed triplet, and a player
    who has one is the winner [CheckWinnerRaw] reports. *)
Theorem played_single_winner bd p :
  played bd p ->
  ~ (has_line bd 1 = true /\ has_line bd 2 = true) /\
  (forall q, q = 1 \/ q = 2 -> has_line bd q = true -> CheckWinnerRaw bd = q).
Proof.
  intros Hplayed. destruct (played_inv _ _ Hplayed) as (Hwf & Hp & Hmine).
  assert (~ (has_line bd 1 = true /\ has_line bd 2 = true)) as Hnot.
  { intros [H1 H2]. destruct Hp as [-> | ->]; congruence. }
  split; [assumption|].
  intros q Hq Hline.
  assert (CheckWinnerRaw bd <> 0) as Hraw
    by (apply (has_line_CheckWinnerRaw bd q); [lia | assumption]).
  pose proof (CheckWinnerRaw_has_line _ Hraw) as Hl.
  destruct (CheckWinnerRaw_wf _ Hwf) as [E|[E|E]]; [contradiction| |];
    rewrite E in *; destruct Hq as [-> | ->]; try reflexivity;
    exfalso; apply Hnot; by split.
Qed.

Lemma played_single_winner_witness :
  ~ (has_line (board ex_o_to_move) 1 = true /\
     has_line (board ex_o_to_move) 2 = true) /\
  (forall q, q = 1 \/ q = 2 -> has_line (board ex_o_to_move) q = true ->
             CheckWinnerRaw (board ex_o_to_move) = q).
Proof.
  apply (played_single_winner (board ex_o_to_move) 2). exact played_example.
Defined.

(** ** C7

    For every board, the outcome computed by lines 151-152 (and 195-196)
    and shown by [RenderGame]: if a triplet of [WINS] matches (three
    equal non-empty cells) and none before it does, the winner is the
    content of that triplet and the outcome is a win for it; if no
    triplet matches and no cell is empty the outcome is a draw; if no
    triplet matches and some cell is empty the game is in progress. *)
Theorem outcome_scan st :
  length (board st) = 9%nat ->
  (forall pre l0 l1 l2 post,
     WINS = pre ++ (l0, l1, l2) :: post ->
     (forall l, In l pre -> line_matches (board st) l = false) ->
     line_matches (board st) (l0, l1, l2) = true ->
     CheckWinnerRaw (board st) = board st !!! l0 /\ board st !!! l0 <> 0 /\
     outcome (update_outcome st) = Win (board st !!! l0)) /\
  ((forall l, In l WINS -> line_matches (board st) l = false) ->
   (forall i, (i < 9)%nat -> board st !!! i <> 0) ->
     CheckWinnerRaw (board st) = 0 /\ outcome (update_outcome st) = Draw) /\
  ((forall l, In l WINS -> line_matches (board st) l = false) ->
   (exists i, (i < 9)%nat /\ board st !!! i = 0) ->
     CheckWinnerRaw (board st) = 0 /\ outcome (update_outcome st) = InProgress).
Proof.
  intros Hlen. unfold outcome, update_outcome. cbn [gameOver winner board].
  split; [|split].
  - intros pre l0 l1 l2 post HW Hpre Hm.
    assert (CheckWinnerRaw (board st) = board st !!! l0) as Hraw
      by (unfold CheckWinnerRaw; rewrite HW; by apply CheckWinnerRaw_loop_first).
    assert (board st !!! l0 <> 0) as Hnz.
    { simpl in Hm. intros E. rewrite E in Hm. discriminate. }
    rewrite Hraw. split; [reflexivity|]. split; [assumption|].
    destruct (board st !!! l0 =? 0) eqn:E; [lia | reflexivity].
  - intros Hnone Hfull.
    assert (CheckWinnerRaw (board st) = 0) as ->
      by (by apply CheckWinnerRaw_loop_none).
    assert (BoardFull (board st) = true) as ->
      by (apply BoardFull_spec; by rewrite Hlen).
    split; reflexivity.
  - intros Hnone (i & Hi & Hi0).
    assert (CheckWinnerRaw (board st) = 0) as ->
      by (by apply CheckWinnerRaw_loop_none).
    assert (BoardFull (board st) = false) as ->.
    { destruct (BoardFull (board st)) eqn:E; [|reflexivity].
      exfalso. apply (proj1 (BoardFull_spec _) E i); [lia | assumption]. }
    split; reflexivity.
Qed.

Lemma outcome_scan_witness :
  CheckWinnerRaw (board ex_middle_row) = board ex_middle_row !!! 3%nat /\
  board ex_middle_row !!! 3%nat <> 0 /\
  outcome (update_outcome ex_middle_row) = Win (board ex_middle_row !!! 3%nat).
Proof.
  apply (proj1 (outcome_scan ex_middle_row eq_refl)
           [(0, 1, 2)%nat] 3%nat 4%nat 5%nat
           [(6, 7, 8); (0, 3, 6); (1, 4, 7); (2, 5, 8); (0, 4, 8); (2, 4, 6)]%nat).
  - reflexivity.
  - intros l [<-|[]]. reflexivity.
  - reflexivity.
Defined.

(** ** C8

    For every board with an empty cell and the game-over flag clear:
    (1) for every side, [Negamax] returns as soon as the fuel exceeds the
    number of empty cells; (2) the position handed to each recursive call
    has exactly one empty cell less; (3) the selection loop of
    [AIMove_Negamax] ends with [bestMove] the index of an empty cell, not
    -1, so the fallback is not taken, and O is put on that cell. *)
Theorem search_terminates_fallback_unused st :
  length (board st) = 9%nat ->
  (exists i, (i < 9)%nat /\ board st !!! i = 0) ->
  gameOver st = false ->
  (forall side fuel, (count_empty (board st) < fuel)%nat ->
     exists v, Negamax fuel side st = Some (v, st)) /\
  (forall side idx, (idx < 9)%nat -> board st !!! idx = 0 ->
     S (count_empty (board (set_cell st idx (mark side)))) = count_empty (board st)) /\
  (forall fuel, (count_empty (board st) <= fuel)%nat ->
     exists bestVal bestMove st',
       AIMove_loop fuel ORDER INT_MIN (-1) st = Some (bestVal, bestMove, st) /\
       bestMove <> -1 /\ 0 <= bestMove < 9 /\
       board st !!! Z.to_nat bestMove = 0 /\
       AIMove_Negamax fuel st = Some st' /\
       board st' = <[Z.to_nat bestMove := 2]> (board st)).
Proof.
  intros Hlen Hempty Hgo. split; [|split].
  - intros side fuel Hfuel.
    destruct (Negamax_frame_total fuel side st Hlen Hfuel) as (v & Hv & _). eauto.
  - intros side idx Hidx H0.
    apply child_count_empty; try assumption. apply mark_nonzero.
  - intros fuel Hfuel.
    destruct (AIMove_Negamax_spec fuel st Hlen Hgo Hempty Hfuel)
      as (bv & j & Hj & Hj0 & Hloop & _ & _ & Hrun).
    exists bv, (Z.of_nat j), (AIMove_commit (Z.of_nat j) st).
    rewrite Nat2Z.id.
    split; [assumption|]. split; [lia|]. split; [lia|]. split; [assumption|].
    split; [assumption | apply AIMove_commit_board].
Qed.

Lemma search_terminates_fallback_unused_witness :
  (forall side fuel, (count_empty (board ex_midgame) < fuel)%nat ->
     exists v, Negamax fuel side ex_midgame = Some (v, ex_midgame)) /\
  (forall side idx, (idx < 9)%nat -> board ex_midgame !!! idx = 0 ->
     S (count_empty (board (set_cell ex_midgame idx (mark side))))
       = count_empty (board ex_midgame)) /\
  (forall fuel, (count_empty (board ex_midgame) <= fuel)%nat ->
     exists bestVal bestMove st',
       AIMove_loop fuel ORDER INT_MIN (-1) ex_midgame
         = Some (bestVal, bestMove, ex_midgame) /\
       bestMove <> -1 /\ 0 <= bestMove < 9 /\
       board ex_midgame !!! Z.to_nat bestMove = 0 /\
       AIMove_Negamax fuel ex_midgame = Some st' /\
       board st' = <[Z.to_nat bestMove := 2]> (board ex_midgame)).
Proof.
  apply (search_terminates_fallback_unused ex_midgame).
  - reflexivity.
  - exists 1%nat. split; [lia | reflexivity].
  - reflexivity.
Defined.

(** ** C9

    For every board and side, [Negamax] with fuel above the number of
    empty cells returns, and any run of [Negamax] that returns hands back
    the very state it was given: the board, the turn indicator, the
    game-over flag and the winner (and the AI switch) are unchanged. *)
Theorem Negamax_restores_state side st :
  length (board st) = 9%nat ->
  (forall fuel, (count_empty (board st) < fuel)%nat ->
     exists v, Negamax fuel side st = Some (v, st)) /\
  (forall fuel v st', Negamax fuel side st = Some (v, st') ->
     st' = st /\
     board st' = board st /\ currentPlayer st' = currentPlayer st /\
     gameOver st' = gameOver st /\ winner st' = winner st).
Proof.
  intros Hlen. split.
  - intros fuel Hfuel.
    destruct (Negamax_frame_total fuel side st Hlen Hfuel) as (v & Hv & _). eauto.
  - intros fuel v st' Hrun.
    pose proof (Negamax_frame fuel side st v st' Hlen Hrun) as ->.
    repeat split.
Qed.

Lemma Negamax_restores_state_witness :
  (forall fuel, (count_empty (board ex_midgame) < fuel)%nat ->
     exists v, Negamax fuel 1 ex_midgame = Some (v, ex_midgame)) /\
  (forall fuel v st', Negamax fuel 1 ex_midgame = Some (v, st') ->
     st' = ex_midgame /\
     board st' = board ex_midgame /\ currentPlayer st' = currentPlayer ex_midgame /\
     gameOver st' = gameOver ex_midgame /\ winner st' = winner ex_midgame).
Proof.
  apply (Negamax_restores_state 1 ex_midgame). reflexivity.
Defined.

(** ** C10

    With the game-over flag set, [AIMove_Negamax] returns at once,
    whatever the fuel, and the state it returns is the state it was
    given. *)
Theorem AIMove_game_over_noop fuel st :
  gameOver st = true -> AIMove_Negamax fuel st = Some st.
Proof. intros Hgo. unfold AIMove_Negamax. by rewrite Hgo. Qed.

Lemma AIMove_game_over_noop_witness :
  AIMove_Negamax 0 ex_x_won = Some ex_x_won.
Proof.
  apply (AIMove_game_over_noop 0 ex_x_won). reflexivity.
Defined.

(** ** Sanity checks on concrete positions *)

Example Negamax_empty_board_draw :
  Negamax 10 1 (ResetGame init_state) = Some (0, ResetGame init_state).
Proof. vm_compute. reflexivity. Qed.

Example Negamax_full_board_draw : Negamax 1 1 ex_draw = Some (0, ex_draw).
Proof. reflexivity. Qed.

Example outcome_full_board_draw : outcome (update_outcome ex_draw) = Draw.
Proof. reflexivity. Qed.

Example AIMove_takes_winning_cell :
  AIMove_Negamax 4 ex_o_to_move
    = Some (mkState [1; 1; 0; 2; 2; 2; 1; 0; 0] 2 true 2 true).
Proof. vm_compute. reflexivity. Qed.

(** * Further properties of the program *)

(** ** One click, case by case *)

Lemma disabled_false st idx :
  disabled st idx = false ->
  gameOver st = false /\ board st !!! idx = 0 /\
  (aiEnabled st = true -> currentPlayer st = 1).
Proof.
  unfold disabled. intros Hen. destruct (aiEnabled st).
  - apply orb_false_iff in Hen as [Hen H3]. apply orb_false_iff in Hen as [H1 H2].
    apply negb_false_iff in H2, H3.
    split; [assumption|]. split; [lia|]. intros _. lia.
  - apply orb_false_iff in Hen as [H1 H2]. apply negb_false_iff in H2.
    split; [assumption|]. split; [lia | discriminate].
Qed.

Lemma human_place_board idx st :
  board (human_place idx st) = <[idx := currentPlayer st]> (board st).
Proof. reflexivity. Qed.

(** The three ways a click ends: the human's mark ends the game; or, with
    two players, the turn passes; or the AI answers with an O on an empty
    cell. *)
Lemma Click_cases fuel idx st st' :
  length (board st) = 9%nat ->
  Click fuel idx st = Some st' ->
  (gameOver (human_place idx st) = true /\ st' = human_place idx st) \/
  (gameOver (human_place idx st) = false /\ aiEnabled st = false /\
   st' = set_currentPlayer (human_place idx st) (other (currentPlayer st))) \/
  (gameOver (human_place idx st) = false /\ aiEnabled st = true /\
   exists bv j,
     (j < 9)%nat /\ board (human_place idx st) !!! j = 0 /\
     st' = AIMove_commit (Z.of_nat j) (set_currentPlayer (human_place idx st) 2) /\
     board st' = <[j := 2]> (board (human_place idx st)) /\
     forall big, (fuel + count_empty (board (human_place idx st)) <= big)%nat ->
       Negamax big 1 (set_cell (set_currentPlayer (human_place idx st) 2) j 2)
         = Some (- bv, set_cell (set_currentPlayer (human_place idx st) 2) j 2) /\
       forall i r s, (i < 9)%nat -> board (human_place idx st) !!! i = 0 ->
         Negamax big 1 (set_cell (set_currentPlayer (human_place idx st) 2) i 2)
           = Some (r, s) -> - r <= bv).
Proof.
  intros Hlen Hclick. unfold Click in Hclick. cbv zeta in Hclick.
  destruct (gameOver (human_place idx st)) eqn:Hgo1; cbn [negb] in Hclick.
  - left. split; [reflexivity | congruence].
  - right. change (aiEnabled (human_place idx st)) with (aiEnabled st) in Hclick.
    destruct (aiEnabled st) eqn:Eai.
    + right. split; [reflexivity|]. split; [reflexivity|].
      set (st2 := set_currentPlayer (human_place idx st) 2) in *.
      assert (length (board st2) = 9%nat) as Hlen2
        by (unfold st2; simpl; rewrite length_insert; assumption).
      assert (BoardFull (board st2) = false) as Hfull2.
      { apply (game_over_false (board st2)). exact Hgo1. }
      destruct (not_full_empty_cell _ Hfull2) as (i & Hi & Hi0). rewrite Hlen2 in Hi.
      set (big0 := (fuel + count_empty (board st2))%nat).
      destruct (AIMove_Negamax_spec big0 st2 Hlen2 Hgo1
                  (ex_intro _ i (conj Hi Hi0)) ltac:(lia))
        as (bv & j & Hj & Hj0 & _ & Hrj & Hmax & Hrun).
      pose proof (AIMove_Negamax_mono fuel big0 st2 st' ltac:(lia) Hclick) as Hbig.
      rewrite Hrun in Hbig. inversion Hbig; subst st'. clear Hbig.
      exists bv, j. split; [assumption|]. split; [assumption|].
      split; [reflexivity|]. split; [exact (AIMove_commit_board j st2)|].
      intros big Hbigle. split.
      * apply (Negamax_fuel_mono big0 big); [exact Hbigle | assumption].
      * intros k r s Hk Hk0 Hr.
        destruct (Negamax_frame_total big0 1 (set_cell st2 k 2)) as (r0 & Hr0 & _).
        { rewrite set_cell_board, length_insert. assumption. }
        { pose proof (child_count_empty st2 k 2 Hlen2 Hk Hk0 ltac:(lia)). lia. }
        pose proof (Negamax_fuel_mono big0 big _ _ _ Hbigle Hr0) as Hr0'.
        rewrite Hr0' in Hr. assert (r = r0) as -> by congruence.
        apply (Hmax k r0 _ Hk Hk0 Hr0).
    + left. split; [reflexivity|]. split; [reflexivity|].
      inversion Hclick. reflexivity.
Qed.

(** Whatever move is committed, [AIMove_commit] leaves [winner] and
    [gameOver] as the board determines them, keeps [aiEnabled], and
    hands the turn to X unless the game is over. *)
Lemma AIMove_commit_fields bm st :
  winner (AIMove_commit bm st) = CheckWinnerRaw (board (AIMove_commit bm st)) /\
  gameOver (AIMove_commit bm st) = game_over (board (AIMove_commit bm st)) /\
  aiEnabled (AIMove_commit bm st) = aiEnabled st /\
  currentPlayer (AIMove_commit bm st)
    = (if gameOver (AIMove_commit bm st) then currentPlayer st else 1).
Proof.
  unfold AIMove_commit. cbv zeta.
  set (bm' := if bm =? -1 then first_empty (board st) (seq 0 9) bm else bm).
  set (st1 := if negb (bm' =? -1) then set_cell st (Z.to_nat bm') 2 else st).
  assert (aiEnabled st1 = aiEnabled st /\ currentPlayer st1 = currentPlayer st)
    as [Hai Hcp] by (unfold st1; destruct (negb (bm' =? -1)); split; reflexivity).
  destruct (gameOver (update_outcome st1)) eqn:Hgo; cbn [negb].
  - split; [reflexivity|]. split; [reflexivity|]. split; [exact Hai|].
    rewrite Hgo. exact Hcp.
  - split; [reflexivity|]. split; [reflexivity|]. split; [exact Hai|].
    change (gameOver (set_currentPlayer (update_outcome st1) 1))
      with (gameOver (update_outcome st1)). rewrite Hgo. reflexivity.
Qed.

Lemma other_range p : other p = 1 \/ other p = 2.
Proof. unfold other. destruct (p =? 1); [by right | by left]. Qed.

(** In every reachable state the board is well formed, [winner] and
    [gameOver] are the ones the board determines, and [currentPlayer] is
    1 or 2. *)
Lemma reachable_inv st :
  reachable st ->
  wf_board (board st) = true /\
  winner st = CheckWinnerRaw (board st) /\
  gameOver st = game_over (board st) /\
  (currentPlayer st = 1 \/ currentPlayer st = 2).
Proof.
  intros Hreach.
  destruct (reachable_played st Hreach) as (p & Hplayed & Hflag & _).
  destruct (played_inv _ _ Hplayed) as (Hwf & _ & _).
  split; [assumption|]. split; [|split; [assumption|]].
  - clear p Hplayed Hflag Hwf.
    induction Hreach as [|st st' Hreach IH Hstep]; [reflexivity|].
    destruct (reachable_played st Hreach) as (p & Hplayed & _ & _).
    destruct (played_inv _ _ Hplayed) as (Hwf & _ & _).
    pose proof (wf_board_length _ Hwf) as Hlen.
    destruct Hstep as [st | st | st idx fuel st' Hidx Hen Hclick];
      [reflexivity | exact IH |].
    destruct (Click_cases fuel idx st st' Hlen Hclick)
      as [[_ ->] | [(_ & _ & ->) | (_ & _ & bv & j & _ & _ & -> & _)]];
      [reflexivity | reflexivity |].
    apply AIMove_commit_fields.
  - clear p Hplayed Hflag Hwf.
    induction Hreach as [|st st' Hreach IH Hstep]; [by left|].
    destruct (reachable_played st Hreach) as (p & Hplayed & _ & _).
    destruct (played_inv _ _ Hplayed) as (Hwf & _ & _).
    pose proof (wf_board_length _ Hwf) as Hlen.
    destruct Hstep as [st | st | st idx fuel st' Hidx Hen Hclick];
      [by left | exact IH |].
    destruct (Click_cases fuel idx st st' Hlen Hclick)
      as [[_ ->] | [(_ & _ & ->) | (_ & _ & bv & j & _ & _ & -> & _)]].
    + exact IH.
    + apply other_range.
    + destruct (AIMove_commit_fields (Z.of_nat j)
                  (set_currentPlayer (human_place idx st) 2)) as (_ & _ & _ & ->).
      destruct (gameOver _); [by right | by left].
Qed.

(** ** The value of the search *)

(** X1.  Whatever the side and the fuel, a run of [Negamax] on a 9-cell
    board that returns yields -1, 0 or +1: [best] never leaves the loop
    at [INT_MIN], so the caller's negation cannot overflow. *)
Theorem Negamax_value_range fuel side st v st' :
  length (board st) = 9%nat ->
  Negamax fuel side st = Some (v, st') ->
  v = -1 \/ v = 0 \/ v = 1.
Proof.
  intros Hlen Hrun.
  set (big := (fuel + S (count_empty (board st)))%nat).
  pose proof (Negamax_fuel_mono fuel big side st _ ltac:(lia) Hrun) as Hbig.
  destruct (Negamax_frame_total big side st Hlen ltac:(lia)) as (v' & Hv' & Hr).
  rewrite Hv' in Hbig. inversion Hbig; subst. lia.
Qed.

Lemma Negamax_value_range_witness :
  Negamax 7 (-1) ex_midgame = Some (0, ex_midgame) /\ (0 = -1 \/ 0 = 0 \/ 0 = 1).
Proof.
  assert (Negamax 7 (-1) ex_midgame = Some (0, ex_midgame)) as H
    by (vm_compute; reflexivity).
  split; [exact H|].
  exact (Negamax_value_range 7 (-1) ex_midgame 0 ex_midgame eq_refl H).
Defined.

(** X2.  On a well-formed position where the side to move (+1 or -1) has
    no completed triplet, [Negamax] returns +1 exactly when the side to
    move has a forced win, -1 exactly when it has a forced loss, and 0
    exactly when it has neither. *)
Theorem Negamax_decides_outcome fuel side st :
  side = 1 \/ side = -1 ->
  wf_board (board st) = true ->
  has_line (board st) (mark side) = false ->
  (count_empty (board st) < fuel)%nat ->
  exists v, Negamax fuel side st = Some (v, st) /\
            (v = 1 <-> Won side (board st)) /\
            (v = -1 <-> Lost side (board st)) /\
            (v = 0 <-> ~ Won side (board st) /\ ~ Lost side (board st)).
Proof.
  intros Hside Hwf Hmine Hfuel.
  destruct (Negamax_game_value fuel side st Hside Hwf Hmine Hfuel)
    as (v & Hv & Hr & HW & HL).
  exists v. split; [assumption|]. split; [assumption|]. split; [assumption|].
  split.
  - intros ->. split; intros H; [apply HW in H | apply HL in H]; lia.
  - intros [HnW HnL].
    assert (v <> 1) by (intros E; apply HnW, HW, E).
    assert (v <> -1) by (intros E; apply HnL, HL, E).
    lia.
Qed.

Lemma Negamax_decides_outcome_witness :
  exists v, Negamax 7 (-1) ex_midgame = Some (v, ex_midgame) /\
            (v = 1 <-> Won (-1) (board ex_midgame)) /\
            (v = -1 <-> Lost (-1) (board ex_midgame)) /\
            (v = 0 <-> ~ Won (-1) (board ex_midgame) /\ ~ Lost (-1) (board ex_midgame)).
Proof.
  apply (Negamax_decides_outcome 7 (-1) ex_midgame).
  - by right.
  - reflexivity.
  - reflexivity.
  - simpl. lia.
Defined.

(** ** The AI's choice is optimal *)

(** A candidate whose score is maximal is as good as any other: if it
    loses by force so does every candidate, and if some candidate wins by
    force so does it. *)
Lemma choice_optimal big st j bv :
  wf_board (board st) = true -> CheckWinnerRaw (board st) = 0 ->
  (count_empty (board st) <= big)%nat ->
  (j < 9)%nat -> board st !!! j = 0 ->
  Negamax big 1 (set_cell st j 2) = Some (- bv, set_cell st j 2) ->
  (forall i r s, (i < 9)%nat -> board st !!! i = 0 ->
     Negamax big 1 (set_cell st i 2) = Some (r, s) -> - r <= bv) ->
  (Won 1 (<[j := 2]> (board st)) ->
     forall i, (i < 9)%nat -> board st !!! i = 0 -> Won 1 (<[i := 2]> (board st))) /\
  (forall i, (i < 9)%nat -> board st !!! i = 0 ->
     Lost 1 (<[i := 2]> (board st)) -> Lost 1 (<[j := 2]> (board st))).
Proof.
  intros Hwf Hraw Hfuel Hj Hj0 Hrj Hmax.
  pose proof (wf_board_length _ Hwf) as Hlen.
  assert (has_line (board st) 1 = false) as HnoX by (by apply no_raw_winner_no_line).
  assert (forall k, (k < 9)%nat -> board st !!! k = 0 ->
    exists v, Negamax big 1 (set_cell st k 2) = Some (v, set_cell st k 2) /\
              -1 <= v <= 1 /\ (v = 1 <-> Won 1 (<[k := 2]> (board st))) /\
              (v = -1 <-> Lost 1 (<[k := 2]> (board st)))) as Hval.
  { intros k Hk Hk0.
    destruct (Negamax_game_value big 1 (set_cell st k 2)) as (v & Hv & Hvr & HvW & HvL).
    - by left.
    - rewrite set_cell_board. by apply wf_board_insert.
    - rewrite set_cell_board. change (mark 1) with 1.
      apply has_line_insert_other; [lia | lia | assumption..].
    - pose proof (child_count_empty st k 2 Hlen Hk Hk0 ltac:(lia)). lia.
    - exists v. rewrite set_cell_board in HvW, HvL.
      split; [assumption|]. split; [assumption|]. split; assumption. }
  destruct (Hval j Hj Hj0) as (vj & Hvj & Hvjr & HvjW & HvjL).
  rewrite Hrj in Hvj. inversion Hvj; subst vj. clear Hvj.
  split.
  - intros HW i Hi Hi0. apply HvjW in HW.
    destruct (Hval i Hi Hi0) as (vi & Hvi & Hvir & HviW & _).
    apply HviW. pose proof (Hmax i vi _ Hi Hi0 Hvi). lia.
  - intros i Hi Hi0 HL.
    destruct (Hval i Hi Hi0) as (vi & Hvi & Hvir & _ & HviL).
    apply HviL in HL. apply HvjL.
    pose proof (Hmax i vi _ Hi Hi0 Hvi). lia.
Qed.

(** X3.  On a board of legal play where the game is not over, if O has a
    move after which X loses by force, then [AIMove_Negamax] returns and
    the O it places leaves X lost by force: the AI never lets a forced
    win slip. *)
Theorem AIMove_keeps_forced_win fuel st p :
  played (board st) p ->
  gameOver st = false -> game_over (board st) = false ->
  (exists i, (i < 9)%nat /\ board st !!! i = 0 /\
             Lost 1 (<[i := 2]> (board st))) ->
  (count_empty (board st) <= fuel)%nat ->
  exists j st',
    AIMove_Negamax fuel st = Some st' /\
    (j < 9)%nat /\ board st !!! j = 0 /\
    board st' = <[j := 2]> (board st) /\
    Lost 1 (board st').
Proof.
  intros Hplayed Hgo Hbd (i & Hi & Hi0 & HL) Hfuel.
  destruct (played_inv _ _ Hplayed) as (Hwf & _ & _).
  pose proof (wf_board_length _ Hwf) as Hlen.
  destruct (game_over_false _ Hbd) as [Hraw _].
  destruct (AIMove_Negamax_spec fuel st Hlen Hgo (ex_intro _ i (conj Hi Hi0)) Hfuel)
    as (bv & j & Hj & Hj0 & _ & Hrj & Hmax & Hrun).
  destruct (choice_optimal fuel st j bv Hwf Hraw Hfuel Hj Hj0 Hrj Hmax) as [_ Hkeep].
  exists j, (AIMove_commit (Z.of_nat j) st).
  split; [assumption|]. split; [assumption|]. split; [assumption|].
  split; [apply AIMove_commit_board|]. rewrite AIMove_commit_board.
  by apply (Hkeep i).
Qed.

Lemma AIMove_keeps_forced_win_witness :
  exists j st',
    AIMove_Negamax 4 ex_o_to_move = Some st' /\
    (j < 9)%nat /\ board ex_o_to_move !!! j = 0 /\
    board st' = <[j := 2]> (board ex_o_to_move) /\
    Lost 1 (board st').
Proof.
  apply (AIMove_keeps_forced_win 4 ex_o_to_move 2).
  - exact played_example.
  - reflexivity.
  - reflexivity.
  - exists 5%nat. split; [lia|]. split; [reflexivity|].
    apply Lost_line. reflexivity.
  - simpl. lia.
Defined.

(** ** Playing against the AI *)

Lemma empty_board_not_won : ~ Won 1 (replicate 9 0).
Proof.
  destruct (Negamax_game_value 10 1 (ResetGame init_state))
    as (v & Hv & _ & HW & _); [by left | reflexivity | reflexivity | simpl; lia |].
  assert (Negamax 10 1 (ResetGame init_state) = Some (0, ResetGame init_state)) as H0
    by (vm_compute; reflexivity).
  rewrite H0 in Hv. inversion Hv; subst v.
  intros H. apply HW in H. discriminate.
Qed.

Lemma reachable_ai_reachable st :
  reachable_ai st -> reachable st /\ aiEnabled st = true.
Proof.
  induction 1 as [|st Hr [IH Hai]|st idx fuel st' Hr [IH Hai] Hidx Hen Hclick].
  - split; [apply reachable_start | reflexivity].
  - split; [apply (reachable_step st); [assumption | apply step_reset] | exact Hai].
  - split; [apply (reachable_step st); [assumption | by apply (step_click st idx fuel)]|].
    destruct (reachable_inv st IH) as (Hwf & _).
    pose proof (wf_board_length _ Hwf) as Hlen.
    destruct (Click_cases fuel idx st st' Hlen Hclick)
      as [[_ ->] | [(_ & _ & ->) | (_ & _ & bv & j & _ & _ & -> & _)]];
      [exact Hai | exact Hai |].
    destruct (AIMove_commit_fields (Z.of_nat j)
                (set_currentPlayer (human_place idx st) 2)) as (_ & _ & -> & _).
    exact Hai.
Qed.

(** With the checkbox left ticked: X never has a completed triplet, and
    whenever the game goes on it is X's turn on a board of legal play
    from which X has no forced win. *)
Lemma reachable_ai_inv st :
  reachable_ai st ->
  has_line (board st) 1 = false /\
  (gameOver st = false ->
     currentPlayer st = 1 /\ played (board st) 1 /\ ~ Won 1 (board st)).
Proof.
  induction 1 as [|st Hr _|st idx fuel st' Hr [HnoX IH] Hidx Hen Hclick].
  - split; [reflexivity|]. intros _. split; [reflexivity|].
    split; [apply played_start | apply empty_board_not_won].
  - split; [reflexivity|]. intros _. split; [reflexivity|].
    split; [apply played_start | apply empty_board_not_won].
  - destruct (reachable_ai_reachable st Hr) as [Hreach Hai].
    destruct (reachable_inv st Hreach) as (Hwf & _ & Hflag & _).
    pose proof (wf_board_length _ Hwf) as Hlen.
    destruct (disabled_false st idx Hen) as (Hgo & H0 & _).
    destruct (IH Hgo) as (Hcp & Hplayed & HnW).
    rewrite Hgo in Hflag. symmetry in Hflag.
    destruct (game_over_false _ Hflag) as [Hraw _].
    assert (has_line (board st) 2 = false) as HnoO
      by (by apply no_raw_winner_no_line).
    (* the board after X's mark *)
    set (st1 := human_place idx st) in *.
    assert (board st1 = <[idx := 1]> (board st)) as Hbd1
      by (unfold st1; rewrite human_place_board, Hcp; reflexivity).
    assert (played (board st1) 2) as Hplayed1
      by (rewrite Hbd1; exact (played_move _ _ idx Hplayed Hflag Hidx H0)).
    assert (~ Lost (-1) (board st1)) as HnL.
    { intros HL. apply HnW. apply (Won_move 1 (board st) idx); try assumption.
      change (mark 1) with 1. rewrite <- Hbd1. exact HL. }
    assert (has_line (board st1) 1 = false) as HnoX1.
    { destruct (has_line (board st1) 1) eqn:E; [|reflexivity].
      exfalso. apply HnL. by apply Lost_line. }
    assert (has_line (board st1) 2 = false) as HnoO1
      by (rewrite Hbd1; apply has_line_insert_other; [lia | lia | assumption..]).
    destruct (played_inv _ _ Hplayed1) as (Hwf1 & _ & _).
    pose proof (wf_board_length _ Hwf1) as Hlen1.
    pose proof (Click_cases fuel idx st st' Hlen Hclick) as Hcases.
    fold st1 in Hcases.
    destruct Hcases
      as [[Hgo1 Est'] | [(_ & Hai' & _) | (Hgo1 & _ & bv & j & Hj & Hj0 & Est' & Hbd' & Hopt)]].
    + rewrite Est'. split; [exact HnoX1|]. intros Hgo'. congruence.
    + congruence.
    + assert (game_over (board st1) = false) as Hbdgo by exact Hgo1.
      destruct (game_over_false _ Hbdgo) as [Hraw1 _].
      assert (has_line (board st') 1 = false) as HnoX'
        by (rewrite Hbd'; apply has_line_insert_other; [lia | lia | assumption..]).
      split; [exact HnoX'|]. intros Hgo'.
      destruct (AIMove_commit_fields (Z.of_nat j) (set_currentPlayer st1 2))
        as (_ & _ & _ & Hcp').
      rewrite <- Est', Hgo' in Hcp'.
      split; [exact Hcp'|]. split.
      * rewrite Hbd'. exact (played_move _ _ j Hplayed1 Hbdgo Hj Hj0).
      * rewrite Hbd'. intros HW. apply HnL.
        set (big := (fuel + count_empty (board st1))%nat).
        destruct (Hopt big ltac:(unfold big; lia)) as [Hrj Hmax].
        destruct (choice_optimal big (set_currentPlayer st1 2) j bv Hwf1 Hraw1
                    ltac:(unfold big; simpl; lia) Hj Hj0 Hrj Hmax) as [Hall _].
        apply Lost_all; try assumption.
        -- exists j. by split.
        -- intros i Hi Hi0. change (mark (-1)) with 2. change (- -1) with 1.
           by apply (Hall HW).
Qed.

(** X4.  With the "Play vs AI" checkbox left ticked from the start, X
    never completes a triplet: in every state reached by clicks and
    resets, [winner] is not 1 and the window never shows a win for X. *)
Theorem AI_never_loses st :
  reachable_ai st ->
  has_line (board st) 1 = false /\ winner st <> 1 /\ outcome st <> Win 1.
Proof.
  intros Hr. destruct (reachable_ai_inv st Hr) as [HnoX _].
  destruct (reachable_ai_reachable st Hr) as [Hreach _].
  destruct (reachable_inv st Hreach) as (_ & Hw & _).
  assert (winner st <> 1) as Hw1.
  { intros E. rewrite Hw in E.
    assert (CheckWinnerRaw (board st) <> 0) as Hnz by lia.
    apply CheckWinnerRaw_has_line in Hnz. rewrite E in Hnz. congruence. }
  split; [assumption|]. split; [assumption|].
  unfold outcome. destruct (negb (gameOver st)); [discriminate|].
  destruct (winner st =? 0); [discriminate|]. intros E. inversion E. contradiction.
Qed.

Lemma reachable_ai_example :
  reachable_ai ex_after_center.
Proof.
  apply (reachable_ai_click (GameStartUp init_state) 4 9);
    [apply reachable_ai_start | lia | reflexivity | vm_compute; reflexivity].
Qed.

Lemma AI_never_loses_witness :
  has_line (board ex_after_center) 1 = false /\
  winner ex_after_center <> 1 /\
  outcome ex_after_center <> Win 1.
Proof.
  exact (AI_never_loses _ reachable_ai_example).
Defined.

(** ** Marks on the board *)

Lemma count_mark_insert_same (bd : list Z) i m :
  (i < length bd)%nat -> bd !!! i = 0 -> m <> 0 ->
  count_mark (<[i := m]> bd) m = S (count_mark bd m).
Proof.
  revert i. induction bd as [|x bd IH]; intros i Hlt H0 Hm; simpl in *; [lia|].
  destruct i as [|i]; simpl.
  - change ((x :: bd) !!! 0%nat) with x in H0. subst x.
    rewrite Z.eqb_refl. destruct (0 =? m) eqn:E; [lia | reflexivity].
  - rewrite lookup_total_cons_S in H0.
    destruct (x =? m); rewrite (IH i) by (lia || assumption); reflexivity.
Qed.

Lemma count_mark_insert_other (bd : list Z) i m m' :
  (i < length bd)%nat -> bd !!! i = 0 -> m' <> m -> m' <> 0 ->
  count_mark (<[i := m]> bd) m' = count_mark bd m'.
Proof.
  revert i. induction bd as [|x bd IH]; intros i Hlt H0 Hm Hm'; simpl in *; [lia|].
  destruct i as [|i]; simpl.
  - change ((x :: bd) !!! 0%nat) with x in H0. subst x.
    destruct (m =? m') eqn:E1; destruct (0 =? m') eqn:E2; lia.
  - rewrite lookup_total_cons_S in H0.
    destruct (x =? m'); rewrite (IH i) by (lia || assumption); reflexivity.
Qed.

Lemma played_counts bd p :
  played bd p ->
  (count_mark bd 1 + count_mark bd 2 + count_empty bd = 9)%nat /\
  count_mark bd 1 = (count_mark bd 2 + (if (p =? 2)%Z then 1 else 0))%nat.
Proof.
  induction 1 as [|bd p idx Hplayed [Hsum Hpar] Hgo Hidx H0].
  - split; reflexivity.
  - destruct (played_inv _ _ Hplayed) as (Hwf & Hp & _).
    pose proof (wf_board_length _ Hwf) as Hlen.
    destruct Hp as [-> | ->]; simpl in Hpar |- *.
    + rewrite (count_mark_insert_same bd idx 1) by (lia || assumption).
      rewrite (count_mark_insert_other bd idx 1 2) by (lia || assumption).
      pose proof (count_empty_insert bd idx 1 ltac:(lia) H0 ltac:(lia)). lia.
    + rewrite (count_mark_insert_same bd idx 2) by (lia || assumption).
      rewrite (count_mark_insert_other bd idx 2 1) by (lia || assumption).
      pose proof (count_empty_insert bd idx 2 ltac:(lia) H0 ltac:(lia)). lia.
Qed.

(** X5.  On every board of legal play the marks and the empty cells add
    up to 9, and X has exactly as many marks as O when X is to move and
    exactly one more when O is to move. *)
Theorem played_mark_parity bd p :
  played bd p ->
  (count_mark bd 1 + count_mark bd 2 + count_empty bd = 9)%nat /\
  count_mark bd 1 = (count_mark bd 2 + (if (p =? 2)%Z then 1 else 0))%nat.
Proof. apply played_counts. Qed.

Lemma played_mark_parity_witness :
  (count_mark (board ex_o_to_move) 1 + count_mark (board ex_o_to_move) 2
     + count_empty (board ex_o_to_move) = 9)%nat /\
  count_mark (board ex_o_to_move) 1
    = (count_mark (board ex_o_to_move) 2 + (if (2 =? 2)%Z then 1 else 0))%nat.
Proof.
  exact (played_mark_parity (board ex_o_to_move) 2 played_example).
Defined.

(** X6.  What the window shows is true of the board, in every reachable
    state: a win for [q] only if [q] is 1 or 2 and has a completed
    triplet; a draw only on a full board with no triplet; a game in
    progress only with no triplet and some empty cell. *)
Theorem reachable_outcome_sound st :
  reachable st ->
  match outcome st with
  | Win q => (q = 1 \/ q = 2) /\ has_line (board st) q = true
  | Draw => has_line (board st) 1 = false /\ has_line (board st) 2 = false /\
            BoardFull (board st) = true
  | InProgress => has_line (board st) 1 = false /\ has_line (board st) 2 = false /\
                  BoardFull (board st) = false
  end.
Proof.
  intros Hreach. destruct (reachable_inv st Hreach) as (Hwf & Hw & Hflag & _).
  unfold outcome. rewrite Hflag, Hw. unfold game_over.
  destruct (CheckWinnerRaw (board st) =? 0) eqn:E; cbn [negb orb].
  - apply Z.eqb_eq in E.
    assert (has_line (board st) 1 = false /\ has_line (board st) 2 = false) as [H1 H2]
      by (split; by apply no_raw_winner_no_line).
    destruct (BoardFull (board st)); cbn [negb]; by repeat split.
  - apply Z.eqb_neq in E. split.
    + destruct (CheckWinnerRaw_wf _ Hwf) as [?|[?|?]]; [contradiction | by left | by right].
    + by apply CheckWinnerRaw_has_line.
Qed.

Lemma reachable_example :
  reachable ex_after_center.
Proof. exact (proj1 (reachable_ai_reachable _ reachable_ai_example)). Qed.

Lemma reachable_outcome_sound_witness :
  has_line (board ex_after_center) 1 = false /\
  has_line (board ex_after_center) 2 = false /\
  BoardFull (board ex_after_center) = false.
Proof.
  exact (reachable_outcome_sound _ reachable_example).
Defined.

(** ** Clicks *)

(** X7.  In a reachable state, a click on a cell that is not disabled
    puts the clicker's mark on that cell and changes no cell that was
    already marked, the AI's answer included. *)
Theorem Click_keeps_marks fuel idx st st' :
  reachable st -> (idx < 9)%nat -> disabled st idx = false ->
  Click fuel idx st = Some st' ->
  board st' !!! idx = currentPlayer st /\
  (forall j, (j < 9)%nat -> board st !!! j <> 0 -> board st' !!! j = board st !!! j).
Proof.
  intros Hreach Hidx Hen Hclick.
  destruct (reachable_inv st Hreach) as (Hwf & _ & _ & Hcp).
  pose proof (wf_board_length _ Hwf) as Hlen.
  destruct (disabled_false st idx Hen) as (_ & H0 & _).
  assert (forall j, board st !!! j <> 0 ->
            <[idx := currentPlayer st]> (board st) !!! j = board st !!! j) as Hkeep.
  { intros j Hj. apply list_lookup_total_insert_ne. congruence. }
  assert (<[idx := currentPlayer st]> (board st) !!! idx = currentPlayer st) as Hput
    by (apply list_lookup_total_insert_eq; lia).
  destruct (Click_cases fuel idx st st' Hlen Hclick)
    as [[_ ->] | [(_ & _ & ->) | (_ & _ & bv & j & Hj & Hj0 & _ & Hbd' & _)]].
  - split; [exact Hput | intros j _ Hj; by apply Hkeep].
  - split; [exact Hput | intros j _ Hj; by apply Hkeep].
  - rewrite Hbd', human_place_board. rewrite human_place_board in Hj0.
    assert (j <> idx) as Hne by (intros ->; rewrite Hput in Hj0; lia).
    split.
    + rewrite list_lookup_total_insert_ne by assumption. exact Hput.
    + intros k _ Hk. rewrite list_lookup_total_insert_ne.
      * by apply Hkeep.
      * intros ->. rewrite (Hkeep k Hk) in Hj0. contradiction.
Qed.

Lemma Click_keeps_marks_witness :
  board ex_after_center !!! 4%nat
    = currentPlayer (GameStartUp init_state) /\
  (forall j, (j < 9)%nat -> board (GameStartUp init_state) !!! j <> 0 ->
     board ex_after_center !!! j
       = board (GameStartUp init_state) !!! j).
Proof.
  apply (Click_keeps_marks 9 4 (GameStartUp init_state)).
  - apply reachable_start.
  - lia.
  - reflexivity.
  - vm_compute. reflexivity.
Defined.

Lemma Click_count fuel idx st st' :
  reachable st -> (idx < 9)%nat -> disabled st idx = false ->
  Click fuel idx st = Some st' ->
  count_empty (board st) =
    (count_empty (board st')
     + (if aiEnabled st && negb (gameOver (human_place idx st)) then 2 else 1))%nat.
Proof.
  intros Hreach Hidx Hen Hclick.
  destruct (reachable_inv st Hreach) as (Hwf & _ & _ & Hcp).
  pose proof (wf_board_length _ Hwf) as Hlen.
  destruct (disabled_false st idx Hen) as (_ & H0 & _).
  assert (S (count_empty (board (human_place idx st))) = count_empty (board st)) as H1.
  { rewrite human_place_board. apply count_empty_insert; [lia | assumption | lia]. }
  destruct (Click_cases fuel idx st st' Hlen Hclick)
    as [[Hgo ->] | [(Hgo & Hai & ->) | (Hgo & Hai & bv & j & Hj & Hj0 & _ & Hbd' & _)]].
  - rewrite Hgo, andb_false_r. lia.
  - rewrite Hai. cbn [andb].
    change (board (set_currentPlayer (human_place idx st) (other (currentPlayer st))))
      with (board (human_place idx st)). lia.
  - rewrite Hgo, Hai. cbn [andb negb]. rewrite Hbd'.
    pose proof (count_empty_insert (board (human_place idx st)) j 2) as H2.
    rewrite human_place_board, length_insert in H2.
    rewrite human_place_board in Hj0 |- *.
    specialize (H2 ltac:(lia) Hj0 ltac:(lia)).
    rewrite human_place_board in H1. lia.
Qed.

(** X8.  In a reachable state, a click on a cell that is not disabled
    fills exactly one empty cell, or exactly two when the AI is on and
    the human's mark does not end the game: every click strictly
    reduces the number of empty cells. *)
Theorem Click_fills_cells fuel idx st st' :
  reachable st -> (idx < 9)%nat -> disabled st idx = false ->
  Click fuel idx st = Some st' ->
  count_empty (board st) =
    (count_empty (board st')
     + (if aiEnabled st && negb (gameOver (human_place idx st)) then 2 else 1))%nat.
Proof. apply Click_count. Qed.

Lemma Click_fills_cells_witness :
  count_empty (board (GameStartUp init_state)) =
    (count_empty (board ex_after_center)
     + (if aiEnabled (GameStartUp init_state)
           && negb (gameOver (human_place 4 (GameStartUp init_state)))
        then 2 else 1))%nat.
Proof.
  apply (Click_fills_cells 9 4 (GameStartUp init_state)).
  - apply reachable_start.
  - lia.
  - reflexivity.
  - vm_compute. reflexivity.
Defined.

(** X9.  In a reachable state, the handler of a click on a cell that is
    not disabled returns as soon as the fuel is at least the number of
    empty cells (9 always suffices): the AI's search inside it
    terminates. *)
Theorem Click_returns fuel idx st :
  reachable st -> (idx < 9)%nat -> disabled st idx = false ->
  (count_empty (board st) <= fuel)%nat ->
  exists st', Click fuel idx st = Some st'.
Proof.
  intros Hreach Hidx Hen Hfuel.
  destruct (reachable_inv st Hreach) as (Hwf & _ & _ & Hcp).
  pose proof (wf_board_length _ Hwf) as Hlen.
  destruct (disabled_false st idx Hen) as (_ & H0 & _).
  unfold Click. cbv zeta.
  destruct (gameOver (human_place idx st)) eqn:Hgo; cbn [negb]; [eauto|].
  destruct (aiEnabled (human_place idx st)); [|eauto].
  set (st2 := set_currentPlayer (human_place idx st) 2).
  assert (length (board st2) = 9%nat) as Hlen2
    by (unfold st2; simpl; rewrite length_insert; assumption).
  assert (BoardFull (board st2) = false) as Hfull2
    by (apply (game_over_false (board st2)); exact Hgo).
  destruct (not_full_empty_cell _ Hfull2) as (i & Hi & Hi0). rewrite Hlen2 in Hi.
  assert (S (count_empty (board st2)) = count_empty (board st)) as H1.
  { change (board st2) with (board (human_place idx st)).
    rewrite human_place_board. apply count_empty_insert; [lia | assumption | lia]. }
  destruct (AIMove_Negamax_spec fuel st2 Hlen2 Hgo
              (ex_intro _ i (conj Hi Hi0)) ltac:(lia))
    as (bv & j & _ & _ & _ & _ & _ & Hrun).
  eauto.
Qed.

Lemma Click_returns_witness :
  exists st', Click 9 4 (GameStartUp init_state) = Some st'.
Proof.
  apply (Click_returns 9 4 (GameStartUp init_state)).
  - apply reachable_start.
  - lia.
  - reflexivity.
  - simpl. lia.
Defined.

(** ** When no cell can be clicked *)

(** X11.  In a reachable state where the game goes on and either the AI
    is off or it is X's turn, a cell is enabled exactly when it is empty,
    and at least one cell is: play can continue. *)
Theorem play_can_continue st :
  reachable st -> gameOver st = false ->
  aiEnabled st = false \/ currentPlayer st = 1 ->
  (forall idx, disabled st idx = false <-> board st !!! idx = 0) /\
  (exists idx, (idx < 9)%nat /\ disabled st idx = false).
Proof.
  intros Hreach Hgo Hmode.
  destruct (reachable_inv st Hreach) as (Hwf & _ & Hflag & _).
  pose proof (wf_board_length _ Hwf) as Hlen.
  assert (forall idx, disabled st idx = false <-> board st !!! idx = 0) as Hen.
  { intros idx. unfold disabled. rewrite Hgo. cbn [orb].
    destruct (aiEnabled st) eqn:Eai.
    - destruct Hmode as [?|Hcp]; [discriminate|]. rewrite Hcp. cbn [Z.eqb negb].
      rewrite orb_false_r, negb_false_iff. apply Z.eqb_eq.
    - rewrite negb_false_iff. apply Z.eqb_eq. }
  split; [exact Hen|].
  rewrite Hgo in Hflag. symmetry in Hflag.
  destruct (game_over_false _ Hflag) as [_ Hfull].
  destruct (not_full_empty_cell _ Hfull) as (i & Hi & Hi0).
  exists i. split; [lia | by apply Hen].
Qed.

Lemma play_can_continue_witness :
  (forall idx, disabled ex_after_center idx = false
               <-> board ex_after_center !!! idx = 0) /\
  (exists idx, (idx < 9)%nat /\ disabled ex_after_center idx = false).
Proof.
  apply (play_can_continue ex_after_center).
  - exact reachable_example.
  - reflexivity.
  - by right.
Defined.

(** X12.  Ticking the checkbox while it is O's turn in a two-player game
    blocks play: the resulting state is reachable, the game is not over
    and cells are empty, yet every cell is disabled and the AI is not
    called; only Reset or unticking the box leads on. *)
Theorem checkbox_at_O_turn_blocks_play st :
  reachable st -> aiEnabled st = false -> gameOver st = false ->
  currentPlayer st = 2 ->
  reachable (set_aiEnabled st true) /\
  gameOver (set_aiEnabled st true) = false /\
  (exists i, (i < 9)%nat /\ board (set_aiEnabled st true) !!! i = 0) /\
  (forall idx, disabled (set_aiEnabled st true) idx = true) /\
  (forall st', step (set_aiEnabled st true) st' ->
     st' = ResetGame (set_aiEnabled st true) \/ st' = set_aiEnabled st false).
Proof.
  intros Hreach Hai Hgo Hcp.
  destruct (reachable_inv st Hreach) as (Hwf & _ & Hflag & _).
  pose proof (wf_board_length _ Hwf) as Hlen.
  assert (forall idx, disabled (set_aiEnabled st true) idx = true) as Hdis.
  { intros idx. unfold disabled. cbn [aiEnabled set_aiEnabled currentPlayer].
    rewrite Hcp. cbn [Z.eqb negb]. by rewrite orb_true_r. }
  split; [|split; [exact Hgo|]; split; [|split; [exact Hdis|]]].
  - apply (reachable_step st); [assumption|].
    replace true with (negb (aiEnabled st)) by (by rewrite Hai).
    apply step_checkbox.
  - rewrite Hgo in Hflag. symmetry in Hflag.
    destruct (game_over_false _ Hflag) as [_ Hfull].
    destruct (not_full_empty_cell _ Hfull) as (i & Hi & Hi0).
    exists i. split; [lia | exact Hi0].
  - intros st' Hstep. inversion Hstep as [s Es | s Es | s idx fuel s' Hidx Hen Hclick Es];
      subst.
    + by left.
    + right. reflexivity.
    + rewrite Hdis in Hen. discriminate.
Qed.

Lemma reachable_two_player_example : reachable ex_two_player_o_turn.
Proof.
  pose proof reachable_start as H0.
  pose proof (reachable_step _ _ H0 (step_checkbox _)) as H1.
  apply (reachable_step _ _ H1).
  apply (step_click _ 4 0); [lia | reflexivity | reflexivity].
Qed.

Lemma checkbox_at_O_turn_blocks_play_witness :
  reachable (set_aiEnabled ex_two_player_o_turn true) /\
  gameOver (set_aiEnabled ex_two_player_o_turn true) = false /\
  (exists i, (i < 9)%nat /\ board (set_aiEnabled ex_two_player_o_turn true) !!! i = 0) /\
  (forall idx, disabled (set_aiEnabled ex_two_player_o_turn true) idx = true) /\
  (forall st', step (set_aiEnabled ex_two_player_o_turn true) st' ->
     st' = ResetGame (set_aiEnabled ex_two_player_o_turn true) \/
     st' = set_aiEnabled ex_two_player_o_turn false).
Proof.
  apply (checkbox_at_O_turn_blocks_play ex_two_player_o_turn).
  - exact reachable_two_player_example.
  - reflexivity.
  - reflexivity.
  - reflexivity.
Defined.

(** X13.  Against the AI (checkbox left ticked), whenever the game goes
    on it is X's turn, X and O have the same number of marks, and some
    cell is enabled: the AI has always answered and the human is never
    locked out. *)
Theorem AI_mode_hands_turn_back st :
  reachable_ai st -> gameOver st = false ->
  currentPlayer st = 1 /\
  count_mark (board st) 1 = count_mark (board st) 2 /\
  (exists idx, (idx < 9)%nat /\ disabled st idx = false).
Proof.
  intros Hr Hgo.
  destruct (reachable_ai_inv st Hr) as [_ Hinv].
  destruct (Hinv Hgo) as (Hcp & Hplayed & _).
  destruct (reachable_ai_reachable st Hr) as [Hreach Hai].
  destruct (reachable_inv st Hreach) as (Hwf & _ & Hflag & _).
  pose proof (wf_board_length _ Hwf) as Hlen.
  split; [exact Hcp|]. split.
  - destruct (played_counts _ _ Hplayed) as [_ Hpar]. simpl in Hpar. lia.
  - rewrite Hgo in Hflag. symmetry in Hflag.
    destruct (game_over_false _ Hflag) as [_ Hfull].
    destruct (not_full_empty_cell _ Hfull) as (i & Hi & Hi0).
    exists i. split; [lia|].
    unfold disabled. rewrite Hai, Hgo, Hi0, Hcp. reflexivity.
Qed.

Lemma AI_mode_hands_turn_back_witness :
  currentPlayer ex_after_center = 1 /\
  count_mark (board ex_after_center) 1 = count_mark (board ex_after_center) 2 /\
  (exists idx, (idx < 9)%nat /\ disabled ex_after_center idx = false).
Proof.
  apply (AI_mode_hands_turn_back ex_after_center).
  - exact reachable_ai_example.
  - reflexivity.
Defined.

(** ** The AI routine on a board with no empty cell, and its fallback *)

Lemma AIMove_loop_full fuel st : forall order bestVal bestMove,
  (forall i, In i order -> board st !!! i <> 0) ->
  AIMove_loop fuel order bestVal bestMove st = Some (bestVal, bestMove, st).
Proof.
  induction order as [|idx rest IH]; intros bestVal bestMove Hfull; [reflexivity|].
  simpl. destruct (board st !!! idx =? 0) eqn:E.
  - exfalso. apply (Hfull idx); [by left | lia].
  - simpl. apply IH. intros i Hi. apply Hfull. by right.
Qed.

(** The fallback scan yields the least empty index of the range, or the
    given default when the range holds no empty cell. *)
Lemma first_empty_seq bd dflt : forall n a,
  (first_empty bd (seq a n) dflt = dflt /\
   forall i, (a <= i < a + n)%nat -> bd !!! i <> 0) \/
  (exists i, (a <= i < a + n)%nat /\
     first_empty bd (seq a n) dflt = Z.of_nat i /\ bd !!! i = 0 /\
     forall k, (a <= k < i)%nat -> bd !!! k <> 0).
Proof.
  induction n as [|n IH]; intros a; simpl.
  - left. split; [reflexivity | intros i Hi; lia].
  - destruct (bd !!! a =? 0) eqn:E.
    + right. exists a. split; [lia|]. split; [reflexivity|]. split; [lia|].
      intros k Hk. lia.
    + destruct (IH (S a)) as [[Hd Hall] | (i & Hi & Hr & Hi0 & Hbefore)].
      * left. split; [assumption|]. intros i Hi.
        destruct (decide (i = a)) as [->|Hne]; [lia | apply Hall; lia].
      * right. exists i. split; [lia|]. split; [assumption|]. split; [assumption|].
        intros k Hk. destruct (decide (k = a)) as [->|Hne]; [lia | apply Hbefore; lia].
Qed.

(** X14.  Called with the game-over flag clear on a board with no empty
    cell, [AIMove_Negamax] scores nothing, the fallback finds nothing and
    no cell is written: it returns, for any fuel, the same board with
    [winner] recomputed and [gameOver] set. *)
Theorem AIMove_on_full_board fuel st :
  length (board st) = 9%nat -> gameOver st = false ->
  BoardFull (board st) = true ->
  AIMove_Negamax fuel st = Some (update_outcome st) /\
  board (update_outcome st) = board st /\
  gameOver (update_outcome st) = true.
Proof.
  intros Hlen Hgo Hfull.
  pose proof (proj1 (BoardFull_spec _) Hfull) as Hcells. rewrite Hlen in Hcells.
  assert (gameOver (update_outcome st) = true) as Hgo'
    by (unfold update_outcome; cbn [gameOver]; rewrite Hfull; apply orb_true_r).
  split; [|split; [reflexivity | exact Hgo']].
  unfold AIMove_Negamax. rewrite Hgo.
  rewrite AIMove_loop_full
    by (intros i Hi; apply Hcells; by apply ORDER_complete).
  f_equal. unfold AIMove_commit. cbv zeta.
  change (-1 =? -1) with true. cbv iota.
  destruct (first_empty_seq (board st) (-1) 9 0) as [[-> _] | (i & Hi & _ & Hi0 & _)].
  - change (-1 =? -1) with true. cbn [negb]. by rewrite Hgo'.
  - exfalso. apply (Hcells i); [lia | assumption].
Qed.

Lemma AIMove_on_full_board_witness :
  AIMove_Negamax 0 ex_full_flag_clear = Some (update_outcome ex_full_flag_clear) /\
  board (update_outcome ex_full_flag_clear) = board ex_full_flag_clear /\
  gameOver (update_outcome ex_full_flag_clear) = true.
Proof.
  apply (AIMove_on_full_board 0 ex_full_flag_clear); reflexivity.
Defined.

(** X15.  The fallback of [AIMove_Negamax]: when the loop has scored no
    candidate ([bestMove] still -1) and the board has an empty cell, O is
    put on the empty cell of least index and on no other cell. *)
Theorem fallback_takes_first_empty st i :
  length (board st) = 9%nat -> (i < 9)%nat ->
  board st !!! i = 0 -> (forall k, (k < i)%nat -> board st !!! k <> 0) ->
  board (AIMove_commit (-1) st) = <[i := 2]> (board st).
Proof.
  intros Hlen Hi Hi0 Hbefore.
  destruct (first_empty_seq (board st) (-1) 9 0)
    as [[_ Hall] | (j & Hj & Hr & Hj0 & Hjbefore)].
  - exfalso. apply (Hall i); [lia | assumption].
  - assert (j = i) as ->.
    { destruct (Nat.lt_trichotomy j i) as [Hlt|[E|Hgt]]; [|assumption|].
      - exfalso. by apply (Hbefore j).
      - exfalso. apply (Hjbefore i); [lia | assumption]. }
    unfold AIMove_commit. cbv zeta.
    change (-1 =? -1) with true. cbv iota. rewrite Hr.
    assert ((Z.of_nat i =? -1) = false) as -> by (apply Z.eqb_neq; lia).
    cbn [negb]. rewrite Nat2Z.id.
    destruct (negb (gameOver (update_outcome (set_cell st i 2)))); reflexivity.
Qed.

Lemma fallback_takes_first_empty_witness :
  board (AIMove_commit (-1) ex_o_to_move) = <[2%nat := 2]> (board ex_o_to_move).
Proof.
  apply (fallback_takes_first_empty ex_o_to_move 2).
  - reflexivity.
  - lia.
  - reflexivity.
  - intros k Hk. destruct k as [|[|k]]; [discriminate | discriminate | lia].
Defined.

(** ** Exchanging the marks *)

Lemma swap_cell_zero c : (swap_cell c =? 0) = (c =? 0).
Proof.
  unfold swap_cell. destruct (c =? 1) eqn:E1; [lia|].
  destruct (c =? 2) eqn:E2; [lia | reflexivity].
Qed.

Lemma swap_cell_eqb a b : (swap_cell a =? swap_cell b) = (a =? b).
Proof.
  unfold swap_cell.
  destruct (a =? 1) eqn:A1; destruct (a =? 2) eqn:A2;
    destruct (b =? 1) eqn:B1; destruct (b =? 2) eqn:B2; lia.
Qed.

Lemma swap_cell_mark side : side = 1 \/ side = -1 -> swap_cell (mark side) = mark (- side).
Proof. intros [-> | ->]; reflexivity. Qed.

Lemma swap_board_lookup bd i :
  (i < length bd)%nat -> swap_board bd !!! i = swap_cell (bd !!! i).
Proof. intros Hi. unfold swap_board. by apply list_lookup_total_fmap. Qed.

Lemma swap_board_length bd : length (swap_board bd) = length bd.
Proof. apply length_fmap. Qed.

Lemma WINS_in_range l0 l1 l2 :
  In (l0, l1, l2) WINS -> (l0 < 9)%nat /\ (l1 < 9)%nat /\ (l2 < 9)%nat.
Proof.
  unfold WINS. simpl. intros H.
  repeat (destruct H as [H|H]; [inversion H; lia|]). destruct H.
Qed.

Lemma CheckWinnerRaw_loop_swap bd : forall lines,
  (forall l0 l1 l2, In (l0, l1, l2) lines ->
     (l0 < length bd)%nat /\ (l1 < length bd)%nat /\ (l2 < length bd)%nat) ->
  CheckWinnerRaw_loop lines (swap_board bd) = swap_cell (CheckWinnerRaw_loop lines bd).
Proof.
  induction lines as [|[[l0 l1] l2] rest IH]; intros Hin; simpl; [reflexivity|].
  destruct (Hin l0 l1 l2 (or_introl eq_refl)) as (H0 & H1 & H2).
  rewrite !swap_board_lookup by assumption.
  rewrite swap_cell_zero, !swap_cell_eqb.
  destruct (negb (bd !!! l0 =? 0) && (bd !!! l0 =? bd !!! l1) && (bd !!! l1 =? bd !!! l2));
    [reflexivity|].
  apply IH. intros a b c Habc. apply Hin. by right.
Qed.

Lemma CheckWinnerSigned_swap bd :
  length bd = 9%nat -> CheckWinnerSigned (swap_board bd) = - CheckWinnerSigned bd.
Proof.
  intros Hlen. unfold CheckWinnerSigned, CheckWinnerRaw.
  rewrite CheckWinnerRaw_loop_swap
    by (intros a b c H; rewrite Hlen; by apply WINS_in_range).
  set (w := CheckWinnerRaw_loop WINS bd). unfold swap_cell.
  destruct (w =? 1) eqn:E1; [reflexivity|].
  destruct (w =? 2) eqn:E2; [reflexivity|].
  rewrite E1, E2. reflexivity.
Qed.

Lemma BoardFull_swap bd : BoardFull (swap_board bd) = BoardFull bd.
Proof.
  induction bd as [|x bd IH]; [reflexivity|].
  change (swap_board (x :: bd)) with (swap_cell x :: swap_board bd). simpl.
  rewrite swap_cell_zero, IH. reflexivity.
Qed.

Lemma count_empty_swap bd : count_empty (swap_board bd) = count_empty bd.
Proof.
  induction bd as [|x bd IH]; [reflexivity|].
  change (swap_board (x :: bd)) with (swap_cell x :: swap_board bd). simpl.
  rewrite swap_cell_zero, IH. reflexivity.
Qed.

Lemma swap_state_set_cell st idx side :
  side = 1 \/ side = -1 ->
  set_cell (swap_state st) idx (mark (- side)) = swap_state (set_cell st idx (mark side)).
Proof.
  intros Hside. unfold set_cell, swap_state. cbn [board currentPlayer gameOver winner aiEnabled].
  f_equal. unfold swap_board. rewrite list_fmap_insert.
  by rewrite swap_cell_mark.
Qed.

(** The value of a position for the side to move is the value of the
    mark-exchanged position for the other side. *)
Lemma Negamax_swap fuel : forall side st,
  side = 1 \/ side = -1 ->
  length (board st) = 9%nat -> (count_empty (board st) < fuel)%nat ->
  exists v, Negamax fuel side st = Some (v, st) /\
            Negamax fuel (- side) (swap_state st) = Some (v, swap_state st).
Proof.
  induction fuel as [|fuel IH]; intros side st Hside Hlen Hfuel; [lia|].
  assert (length (board (swap_state st)) = 9%nat) as Hlen'
    by (unfold swap_state; cbn [board]; by rewrite swap_board_length).
  assert (count_empty (board (swap_state st)) = count_empty (board st)) as Hcnt
    by apply count_empty_swap.
  destruct (Negamax_frame_total (S fuel) side st Hlen Hfuel) as (v & Hv & Hvr).
  destruct (Negamax_frame_total (S fuel) (- side) (swap_state st) Hlen' ltac:(lia))
    as (v' & Hv' & Hvr').
  exists v. split; [assumption|]. rewrite Hv'. do 2 f_equal.
  rewrite Negamax_unfold in Hv, Hv'.
  change (board (swap_state st)) with (swap_board (board st)) in Hv'.
  rewrite CheckWinnerSigned_swap, BoardFull_swap in Hv' by assumption.
  destruct (CheckWinnerSigned (board st) =? 0) eqn:Ew.
  - assert ((- CheckWinnerSigned (board st) =? 0) = true) as Ew' by lia.
    rewrite Ew' in Hv'. cbn [negb] in Hv, Hv'.
    destruct (BoardFull (board st)) eqn:Efull; [congruence|].
    assert (forall idx, (idx < 9)%nat -> board st !!! idx = 0 ->
      exists r, Negamax fuel (- side) (set_cell st idx (mark side))
                  = Some (r, set_cell st idx (mark side)) /\
                Negamax fuel (- - side) (set_cell (swap_state st) idx (mark (- side)))
                  = Some (r, set_cell (swap_state st) idx (mark (- side))) /\
                -1 <= r <= 1) as Hchild.
    { intros idx Hidx H0.
      assert (length (board (set_cell st idx (mark side))) = 9%nat) as Hl
        by (rewrite set_cell_board, length_insert; assumption).
      assert (count_empty (board (set_cell st idx (mark side))) < fuel)%nat as Hc
        by (pose proof (child_count_empty st idx (mark side) Hlen Hidx H0
                          (mark_nonzero side)); lia).
      destruct (IH (- side) (set_cell st idx (mark side)) ltac:(lia) Hl Hc)
        as (r & Hr & Hr').
      destruct (Negamax_frame_total fuel (- side) _ Hl Hc) as (r0 & Hr0 & Hrr).
      rewrite Hr in Hr0. inversion Hr0; subst r0.
      exists r. rewrite swap_state_set_cell by assumption.
      split; [assumption|]. split; assumption. }
    assert (forall idx, (idx < 9)%nat ->
              (board (swap_state st) !!! idx = 0 <-> board st !!! idx = 0)) as Hempty.
    { intros idx Hidx. change (board (swap_state st)) with (swap_board (board st)).
      rewrite swap_board_lookup by lia.
      pose proof (swap_cell_zero (board st !!! idx)). lia. }
    destruct (Negamax_loop_spec (Negamax fuel) side st Hlen) with (order := ORDER)
      (best := INT_MIN) as (v1 & Hv1 & Hv1r & HA & HB).
    { intros idx Hidx H0. destruct (Hchild idx Hidx H0) as (r & Hr & _ & Hrr). eauto. }
    { intros i Hi. by apply ORDER_complete. }
    { unfold INT_MIN. lia. }
    destruct (Negamax_loop_spec (Negamax fuel) (- side) (swap_state st) Hlen')
      with (order := ORDER) (best := INT_MIN) as (v2 & Hv2 & Hv2r & HA' & HB').
    { intros idx Hidx H0. apply Hempty in H0; [|assumption].
      destruct (Hchild idx Hidx H0) as (r & _ & Hr & Hrr). eauto. }
    { intros i Hi. by apply ORDER_complete. }
    { unfold INT_MIN. lia. }
    rewrite Hv1 in Hv. rewrite Hv2 in Hv'.
    assert (v = v1) as -> by congruence. assert (v' = v2) as -> by congruence.
    apply Z.le_antisymm.
    + destruct HB' as [-> | (idx & Hin & H0 & Hr2)]; [lia|].
      apply ORDER_complete in Hin. pose proof (proj1 (Hempty idx Hin) H0) as H0'.
      destruct (Hchild idx Hin H0') as (r & Hr & Hr' & _).
      rewrite Hr2 in Hr'. inversion Hr'; subst r.
      pose proof (HA idx _ _ (proj1 (ORDER_complete idx) Hin) H0' Hr). lia.
    + destruct HB as [-> | (idx & Hin & H0 & Hr1)]; [lia|].
      apply ORDER_complete in Hin. pose proof (proj2 (Hempty idx Hin) H0) as H0'.
      destruct (Hchild idx Hin H0) as (r & Hr & Hr' & _).
      rewrite Hr1 in Hr. inversion Hr; subst r.
      pose proof (HA' idx _ _ (proj1 (ORDER_complete idx) Hin) H0' Hr'). lia.
  - assert ((- CheckWinnerSigned (board st) =? 0) = false) as Ew' by lia.
    rewrite Ew' in Hv'. cbn [negb] in Hv, Hv'.
    assert ((- CheckWinnerSigned (board st) =? - side)
            = (CheckWinnerSigned (board st) =? side)) as Es by lia.
    rewrite Es in Hv'. congruence.
Qed.

(** X16.  Exchanging the marks exchanges the sides: for side +1 or -1
    and any 9-cell board, [Negamax(side)] on the board and
    [Negamax(-side)] on the board with every X turned into O and every O
    into X return the same value. *)
Theorem Negamax_mark_exchange fuel side st :
  side = 1 \/ side = -1 ->
  length (board st) = 9%nat -> (count_empty (board st) < fuel)%nat ->
  exists v, Negamax fuel side st = Some (v, st) /\
            Negamax fuel (- side) (swap_state st) = Some (v, swap_state st).
Proof. apply Negamax_swap. Qed.

Lemma Negamax_mark_exchange_witness :
  exists v, Negamax 7 1 ex_midgame = Some (v, ex_midgame) /\
            Negamax 7 (- 1) (swap_state ex_midgame) = Some (v, swap_state ex_midgame).
Proof.
  apply (Negamax_mark_exchange 7 1 ex_midgame).
  - by left.
  - reflexivity.
  - simpl. lia.
Defined.

(** ** The program's states *)

(** X17.  Every state the program reaches, by any mix of clicks, resets
    and checkbox changes, is consistent: the board has 9 cells holding
    0, 1 or 2 and comes from legal alternating play; [winner] and
    [gameOver] are exactly what the board determines; [currentPlayer] is
    1 or 2 and, while the game goes on, is the player whose turn it is. *)
Theorem reachable_state_consistent st :
  reachable st ->
  wf_board (board st) = true /\
  winner st = CheckWinnerRaw (board st) /\
  gameOver st = game_over (board st) /\
  (currentPlayer st = 1 \/ currentPlayer st = 2) /\
  exists p, played (board st) p /\ (gameOver st = false -> currentPlayer st = p).
Proof.
  intros Hreach.
  destruct (reachable_inv st Hreach) as (Hwf & Hw & Hflag & Hcp).
  destruct (reachable_played st Hreach) as (p & Hplayed & _ & Hturn).
  split; [assumption|]. split; [assumption|]. split; [assumption|].
  split; [assumption|]. exists p. by split.
Qed.

Lemma reachable_state_consistent_witness :
  wf_board (board ex_after_center) = true /\
  winner ex_after_center = CheckWinnerRaw (board ex_after_center) /\
  gameOver ex_after_center = game_over (board ex_after_center) /\
  (currentPlayer ex_after_center = 1 \/ currentPlayer ex_after_center = 2) /\
  exists p, played (board ex_after_center) p /\
            (gameOver ex_after_center = false -> currentPlayer ex_after_center = p).
Proof.
  exact (reachable_state_consistent ex_after_center reachable_example).
Defined.

(** ** Game.h *)

(** X19.  With a positive [numberOfPlayers] and a non-empty player
    vector, [getCurrentPlayer] neither throws nor divides by zero: the
    index [currentTurnNo mod size] is within the vector and the call
    returns the pointer stored there, as it is stored (null if that
    member is null). *)
Theorem getCurrentPlayer_in_range {P : Type} (g : Game P) :
  0 <= currentTurnNo (_gameOptions g) ->
  numberOfPlayers (_gameOptions g) > 0 -> _players g <> [] ->
  exists p,
    getCurrentPlayer g = Returns p /\
    (Z.to_nat (currentTurnNo (_gameOptions g) mod Z.of_nat (length (_players g)))
       < length (_players g))%nat /\
    _players g !! Z.to_nat (currentTurnNo (_gameOptions g)
                            mod Z.of_nat (length (_players g))) = Some p.
Proof.
  intros Hturn Hn Hne. unfold getCurrentPlayer. cbv zeta.
  assert ((numberOfPlayers (_gameOptions g) >? 0) = true) as -> by lia.
  assert (0 < Z.of_nat (length (_players g))) as Hsize
    by (destruct (_players g); [contradiction | simpl; lia]).
  assert ((Z.of_nat (length (_players g)) =? 0) = false) as -> by lia.
  set (i := Z.to_nat (currentTurnNo (_gameOptions g) mod Z.of_nat (length (_players g)))).
  assert (i < length (_players g))%nat as Hi.
  { unfold i. pose proof (Z.mod_pos_bound (currentTurnNo (_gameOptions g))
                            (Z.of_nat (length (_players g))) Hsize). lia. }
  destruct (lookup_lt_is_Some_2 _ _ Hi) as [p Hp].
  exists p. unfold vector_at. rewrite Hp. split; [reflexivity|]. split; [exact Hi | reflexivity].
Qed.

Lemma getCurrentPlayer_in_range_witness :
  exists p,
    getCurrentPlayer ex_game = Returns p /\
    (Z.to_nat (currentTurnNo (_gameOptions ex_game)
               mod Z.of_nat (length (_players ex_game)))
       < length (_players ex_game))%nat /\
    _players ex_game !! Z.to_nat (currentTurnNo (_gameOptions ex_game)
                                  mod Z.of_nat (length (_players ex_game))) = Some p.
Proof.
  apply (getCurrentPlayer_in_range ex_game).
  - simpl. lia.
  - simpl. lia.
  - discriminate.
Defined.

(** X20.  Players take turns round-robin: advancing the turn counter by
    a multiple of the number of players, within the range of
    [unsigned int], gives the same current player. *)
Theorem getCurrentPlayer_round_robin {P : Type} (g : Game P) (k : Z) :
  0 <= k -> 0 <= currentTurnNo (_gameOptions g) ->
  currentTurnNo (_gameOptions g) + k * Z.of_nat (length (_players g)) < 2 ^ 32 ->
  getCurrentPlayer
    (with_turn g (currentTurnNo (_gameOptions g) + k * Z.of_nat (length (_players g))))
  = getCurrentPlayer g.
Proof.
  intros Hk Hturn Hbound. unfold getCurrentPlayer, with_turn.
  cbn [_players _gameOptions numberOfPlayers currentTurnNo]. cbv zeta.
  destruct (numberOfPlayers (_gameOptions g) >? 0); [|reflexivity].
  destruct (Z.of_nat (length (_players g)) =? 0) eqn:E; [reflexivity|].
  rewrite Z.mod_add by lia. reflexivity.
Qed.

Lemma getCurrentPlayer_round_robin_witness :
  getCurrentPlayer
    (with_turn ex_game (currentTurnNo (_gameOptions ex_game)
                        + 3 * Z.of_nat (length (_players ex_game))))
  = getCurrentPlayer ex_game.
Proof.
  apply (getCurrentPlayer_round_robin ex_game 3); simpl; lia.
Defined.

(** ** The AI's score and the search value *)

(** X21.  On a 9-cell board with no winner and an empty cell, the score
    the selection loop ends with is the value [Negamax] gives the
    position for O, and the cell it selects attains that value. *)
Theorem AIMove_attains_Negamax_value fuel st :
  length (board st) = 9%nat -> gameOver st = false ->
  CheckWinnerSigned (board st) = 0 -> BoardFull (board st) = false ->
  (count_empty (board st) <= fuel)%nat ->
  exists v j,
    Negamax (S fuel) (-1) st = Some (v, st) /\
    AIMove_loop fuel ORDER INT_MIN (-1) st = Some (v, Z.of_nat j, st) /\
    (j < 9)%nat /\ board st !!! j = 0 /\
    Negamax fuel 1 (set_cell st j 2) = Some (- v, set_cell st j 2) /\
    AIMove_Negamax fuel st = Some (AIMove_commit (Z.of_nat j) st).
Proof.
  intros Hlen Hgo Hs Hfull Hfuel.
  destruct (not_full_empty_cell _ Hfull) as (i & Hi & Hi0). rewrite Hlen in Hi.
  destruct (AIMove_Negamax_spec fuel st Hlen Hgo (ex_intro _ i (conj Hi Hi0)) Hfuel)
    as (bv & j & Hj & Hj0 & Hloop & Hrj & Hmax & Hrun).
  assert (forall idx, (idx < 9)%nat -> board st !!! idx = 0 ->
    exists r, Negamax fuel (- -1) (set_cell st idx (mark (-1)))
                = Some (r, set_cell st idx (mark (-1))) /\ -1 <= r <= 1) as Hrec.
  { intros idx Hidx H0. apply Negamax_frame_total.
    - rewrite set_cell_board, length_insert. assumption.
    - pose proof (child_count_empty st idx (mark (-1)) Hlen Hidx H0
                    (mark_nonzero (-1))). lia. }
  destruct (Negamax_loop_spec (Negamax fuel) (-1) st Hlen Hrec ORDER INT_MIN)
    as (v & Hv & Hvr & HA & HB).
  { intros k Hk. by apply ORDER_complete. }
  { unfold INT_MIN. lia. }
  assert (v = bv) as ->.
  { apply Z.le_antisymm.
    - destruct HB as [-> | (idx & Hin & H0 & Hr)].
      + destruct (Hrec j Hj Hj0) as (r & Hr & Hrr).
        pose proof (HA j r _ (proj1 (ORDER_complete j) Hj) Hj0 Hr).
        unfold INT_MIN in *. lia.
      + apply ORDER_complete in Hin.
        pose proof (Hmax idx (- v) _ Hin H0 Hr). lia.
    - pose proof (HA j (- bv) _ (proj1 (ORDER_complete j) Hj) Hj0 Hrj). lia. }
  exists bv, j. rewrite Negamax_unfold, Hs, Hfull. cbn [Z.eqb negb].
  split; [exact Hv|]. split; [exact Hloop|]. split; [exact Hj|].
  split; [exact Hj0|]. split; [exact Hrj | exact Hrun].
Qed.

Lemma AIMove_attains_Negamax_value_witness :
  exists v j,
    Negamax 7 (-1) ex_midgame = Some (v, ex_midgame) /\
    AIMove_loop 6 ORDER INT_MIN (-1) ex_midgame = Some (v, Z.of_nat j, ex_midgame) /\
    (j < 9)%nat /\ board ex_midgame !!! j = 0 /\
    Negamax 6 1 (set_cell ex_midgame j 2) = Some (- v, set_cell ex_midgame j 2) /\
    AIMove_Negamax 6 ex_midgame = Some (AIMove_commit (Z.of_nat j) ex_midgame).
Proof.
  apply (AIMove_attains_Negamax_value 6 ex_midgame).
  - reflexivity.
  - reflexivity.
  - reflexivity.
  - reflexivity.
  - simpl. lia.
Defined.

(** ** How long a game lasts *)

Lemma click_run_reachable st n st' :
  reachable st -> click_run st n st' -> reachable st'.
Proof.
  intros Hreach Hrun. induction Hrun as [|st idx fuel st1 n st2 Hidx Hen Hclick _ IH];
    [assumption|].
  apply IH. apply (reachable_step st); [assumption|]. by apply (step_click st idx fuel).
Qed.

Lemma click_run_over st n st' :
  gameOver st = true -> click_run st n st' -> n = O /\ st' = st.
Proof.
  intros Hgo Hrun. destruct Hrun as [|st idx fuel st1 n st2 Hidx Hen Hclick _].
  - by split.
  - exfalso. destruct (disabled_false st idx Hen) as (Hgo' & _). congruence.
Qed.

(** X22.  From a reachable state, a run of [n] clicks fills at least [n]
    empty cells: between two resets at most as many clicks are possible
    as there are empty cells, 9 on a fresh board. *)
Theorem clicks_bounded_by_empty_cells st n st' :
  reachable st -> click_run st n st' ->
  (n + count_empty (board st') <= count_empty (board st))%nat.
Proof.
  intros Hreach Hrun.
  induction Hrun as [|st idx fuel st1 n st2 Hidx Hen Hclick _ IH]; [lia|].
  pose proof (Click_count fuel idx st st1 Hreach Hidx Hen Hclick) as Hcount.
  assert (reachable st1) as Hreach1
    by (apply (reachable_step st); [assumption | by apply (step_click st idx fuel)]).
  specialize (IH Hreach1).
  destruct (aiEnabled st && negb (gameOver (human_place idx st))); lia.
Qed.

Lemma click_run_example : click_run (GameStartUp init_state) 1 ex_after_center.
Proof.
  apply (click_run_click _ 4 9 ex_after_center);
    [lia | reflexivity | vm_compute; reflexivity | apply click_run_done].
Qed.

Lemma clicks_bounded_by_empty_cells_witness :
  (1 + count_empty (board ex_after_center)
   <= count_empty (board (GameStartUp init_state)))%nat.
Proof.
  exact (clicks_bounded_by_empty_cells _ 1 _ reachable_start click_run_example).
Defined.

(** X23.  Against the AI (checkbox left ticked), every click but the
    last of a run fills two cells, the human's and the AI's: a run of
    [n] clicks fills at least [2 n - 1] cells, so a game from a fresh
    board takes at most 5 clicks. *)
Theorem AI_game_clicks_bounded st n st' :
  reachable_ai st -> click_run st n st' ->
  (2 * n + count_empty (board st') <= count_empty (board st) + 1)%nat.
Proof.
  intros Hr Hrun.
  induction Hrun as [|st idx fuel st1 n st2 Hidx Hen Hclick Hrest IH]; [lia|].
  destruct (reachable_ai_reachable st Hr) as [Hreach Hai].
  pose proof (Click_count fuel idx st st1 Hreach Hidx Hen Hclick) as Hcount.
  assert (reachable_ai st1) as Hr1 by (by apply (reachable_ai_click st idx fuel)).
  specialize (IH Hr1). rewrite Hai in Hcount. cbn [andb] in Hcount.
  destruct (gameOver (human_place idx st)) eqn:Hgo1; cbn [negb] in Hcount; [|lia].
  destruct (reachable_inv st Hreach) as (Hwf & _).
  pose proof (wf_board_length _ Hwf) as Hlen.
  destruct (Click_cases fuel idx st st1 Hlen Hclick)
    as [[_ ->] | [(Hgo & _) | (Hgo & _)]]; try congruence.
  destruct (click_run_over _ _ _ Hgo1 Hrest) as [-> ->]. lia.
Qed.

Lemma AI_game_clicks_bounded_witness :
  (2 * 1 + count_empty (board ex_after_center)
   <= count_empty (board (GameStartUp init_state)) + 1)%nat.
Proof.
  exact (AI_game_clicks_bounded _ 1 _ reachable_ai_start click_run_example).
Defined.

(** ** A finished board stops play *)

(** X10.  In a reachable state whose board holds a completed triplet of
    X or of O, or has no empty cell, the game-over flag is set, every
    cell is disabled, and no run of clicks goes on from it: play stops
    at the first win or when the board is full, until Reset. *)
Theorem finished_board_stops_play st :
  reachable st ->
  has_line (board st) 1 = true \/ has_line (board st) 2 = true \/
    BoardFull (board st) = true ->
  gameOver st = true /\
  (forall idx, disabled st idx = true) /\
  (forall n st', click_run st n st' -> n = O /\ st' = st).
Proof.
  intros Hreach Hfin.
  destruct (reachable_inv st Hreach) as (_ & _ & Hflag & _).
  assert (gameOver st = true) as Hgo.
  { rewrite Hflag. unfold game_over.
    destruct Hfin as [H|[H|H]].
    - apply has_line_CheckWinnerRaw in H; [|lia].
      apply orb_true_iff. left. apply negb_true_iff. lia.
    - apply has_line_CheckWinnerRaw in H; [|lia].
      apply orb_true_iff. left. apply negb_true_iff. lia.
    - rewrite H. apply orb_true_r. }
  split; [exact Hgo|]. split.
  - intros idx. unfold disabled. rewrite Hgo. by destruct (aiEnabled st).
  - intros n st' Hrun. by apply (click_run_over st n st' Hgo).
Qed.

Lemma reachable_two_player_x_won : reachable ex_two_player_x_won.
Proof.
  apply (reachable_step (mkState [1; 1; 0; 2; 2; 0; 0; 0; 0] 1 false 0 false));
    [|apply (step_click _ 2 0); [lia | reflexivity | reflexivity]].
  apply (reachable_step (mkState [1; 1; 0; 2; 0; 0; 0; 0; 0] 2 false 0 false));
    [|apply (step_click _ 4 0); [lia | reflexivity | reflexivity]].
  apply (reachable_step (mkState [1; 0; 0; 2; 0; 0; 0; 0; 0] 1 false 0 false));
    [|apply (step_click _ 1 0); [lia | reflexivity | reflexivity]].
  apply (reachable_step (mkState [1; 0; 0; 0; 0; 0; 0; 0; 0] 2 false 0 false));
    [|apply (step_click _ 3 0); [lia | reflexivity | reflexivity]].
  apply (reachable_step (mkState [0; 0; 0; 0; 0; 0; 0; 0; 0] 1 false 0 false));
    [|apply (step_click _ 0 0); [lia | reflexivity | reflexivity]].
  apply (reachable_step (GameStartUp init_state)); [apply reachable_start|].
  exact (step_checkbox (GameStartUp init_state)).
Qed.

Lemma finished_board_stops_play_witness :
  gameOver ex_two_player_x_won = true /\
  (forall idx, disabled ex_two_player_x_won idx = true) /\
  (forall n st', click_run ex_two_player_x_won n st' ->
     n = O /\ st' = ex_two_player_x_won).
Proof.
  apply (finished_board_stops_play ex_two_player_x_won).
  - exact reachable_two_player_x_won.
  - left. reflexivity.
Defined.
